(** * The rich-text renderer of the dialog generator

    A shallow embedding of [src/renderer/textRenderer/textRenderer.ts]:
    the style-stack interpreter [getRenderParts], the metrics helpers
    [measureWidth] and [measureHeight], the quoting operation [quote], the
    alignment pass [fixAlignment] and the two-pass [render].

    Conventions of the embedding.
    - A JavaScript [number] is read as a rational ([Q]); the arithmetic of
      the source ([+], [-], [/], [Math.max]) is the one of [Q].  Equations
      between computed coordinates are stated with [==].
    - A character (one iteration step of [for (const character of s)]) is a
      code point ([N]).
    - An object compared with [===] carries its allocation identity
      ([objectId]); the objects concerned (styles) are never mutated.
    - The canvas context is the history of the operations applied to it.
    - Module-level mutable state ([heightCache], [lastStyle], [tmpContext])
      is threaded explicitly in a record [Env]. *)

From Stdlib Require Import QArith Qminmax Lqa ZArith List Ascii.
From stdpp Require Import gmap strings list pretty.

Local Open Scope Q_scope.

(** ** Data model *)

(** One code point of a string. *)
Definition character := N.

Definition newlineChar : character := 10%N.
Definition quoteChar : character := 34%N.

(** [interface ITextStyle], with the identity of the object. *)
Record ITextStyle := mkStyle {
  objectId : nat;
  fontName : string;
  fontSize : Q;
  isBold : bool;
  isUnderlined : bool;
  isStrikethrough : bool;
  isItalic : bool;
  color : string;
  strokeWidth : Q;
  strokeColor : string;
  letterSpacing : Q;
  lineSpacing : Q;
  alpha : Q
}.

#[global] Instance Q_eq_dec : EqDecision Q.
Proof. solve_decision. Defined.

#[global] Instance ITextStyle_eq_dec : EqDecision ITextStyle.
Proof. solve_decision. Defined.

(** [a === b] on style objects. *)
Definition sameObject (a b : ITextStyle) : bool := bool_decide (a = b).

(** [type: 'character'] with its own fields, or [type: 'newline']. *)
Inductive ItemType :=
| character_ (c : character) (style : ITextStyle)
| newline_.

(** [ITextRenderItem] and its two extensions. *)
Record RenderItem := mkItem {
  type : ItemType;
  x : Q;
  y : Q;
  height : Q;
  width : Q
}.

Definition set_x (v : Q) (it : RenderItem) : RenderItem :=
  {| type := type it; x := v; y := y it; height := height it; width := width it |}.
Definition set_y (v : Q) (it : RenderItem) : RenderItem :=
  {| type := type it; x := x it; y := v; height := height it; width := width it |}.
Definition set_width (v : Q) (it : RenderItem) : RenderItem :=
  {| type := type it; x := x it; y := y it; height := height it; width := v |}.

Definition isNewline (it : RenderItem) : bool :=
  match type it with newline_ => true | character_ _ _ => false end.

(** Tokens, as [getRenderParts] reads them (the tokenizer module itself is
    not part of the sources at hand). *)
Record ICommandToken := mkCommand {
  commandName : string;
  argument : option string;
  pos : N
}.

Inductive Token :=
| TText (content : list character)
| TNewline
| TCommand (tok : ICommandToken)
| TCommandClose (closeName : string) (closePos : N).

(** Operations on a [CanvasRenderingContext2D]. *)
Inductive CanvasOp :=
| Save
| Restore
| SetTextAlign (v : string)
| SetFont (v : string)
| SetLineJoin (v : string)
| SetStrokeStyle (v : string)
| SetLineWidth (v : Q)
| SetGlobalAlpha (v : Q)
| SetFillStyle (v : string)
| StrokeText (c : character) (px py : Q)
| FillText (c : character) (px py : Q).

Definition Canvas := list CanvasOp.

(** [a > 0] on numbers and [s > ''] on strings. *)
Definition positive_number (a : Q) : bool := negb (Qle_bool a 0).
Definition nonempty_string (s : string) : bool :=
  match s with EmptyString => false | String _ _ => true end.

Definition hasStroke (style : ITextStyle) : bool :=
  positive_number (strokeWidth style) && nonempty_string (strokeColor style).

(** [/\s/] on a one-character string. *)
Definition isWhitespace (c : character) : bool :=
  ((9 <=? c) && (c <=? 13) || (c =? 32) || (c =? 160) || (c =? 5760)
   || (8192 <=? c) && (c <=? 8202) || (c =? 8232) || (c =? 8233)
   || (c =? 8239) || (c =? 8287) || (c =? 12288) || (c =? 65279))%N.

(** [v || 0] on a number. *)
Definition or_zero (v : Q) : Q := if Qeq_bool v 0 then 0 else v.

(** The mutable module state.  [layoutLog] records every DOM layout
    measurement [measureHeight] performs. *)
Record Env (Host : Type) := mkEnv {
  heightCache : gmap string Q;
  lastStyle : option ITextStyle;
  tmpContext : Canvas;
  layoutLog : list (string * Q);
  host : Host
}.

Arguments heightCache {Host} _.
Arguments lastStyle {Host} _.
Arguments tmpContext {Host} _.
Arguments layoutLog {Host} _.
Arguments host {Host} _.
Arguments mkEnv {Host} _ _ _ _ _.

(** ** Results and local state of the interpreter *)

(** The three [throw] sites of [getRenderParts], with the data their
    messages carry.  [UndefinedAccess] stands for a [pop()] on an empty
    stack, after which the source holds [undefined]; the interpreter never
    gets there (see [getRenderParts_never_undefined]). *)
Inductive Error :=
| UnknownCommand (name : string) (at_pos : N)
| UnmatchedClose (name : string) (at_pos : N)
| MismatchedClose (name : string) (at_pos : N) (expected : ICommandToken)
| UndefinedAccess.

Inductive Res (A : Type) :=
| Ok (a : A)
| Throw (e : Error).
Arguments Ok {A} a.
Arguments Throw {A} e.

(** The local variables of [getRenderParts].  The two stacks are kept with
    their top (the end of the array) at the head of the list. *)
Record Interp := mkInterp {
  renderParts : list RenderItem;
  styleStack : list ITextStyle;
  tagStack : list (option ICommandToken);
  currentStyleHeight : Q;
  currentStyle : ITextStyle;
  currentTag : option ICommandToken
}.

(** ** The alignment pass *)

Inductive Alignment := alignLeft | alignCenter | alignRight.

(** The [for (const item of currentLine)] loop of [fixLine]. *)
Fixpoint placeItems (x0 : Q) (currentLine : list RenderItem) : list RenderItem :=
  match currentLine with
  | [] => []
  | item :: rest => set_x x0 item :: placeItems (x0 + width item) rest
  end.

(** The start of the cursor [x] in [fixLine]. *)
Definition lineStart (alignment : Alignment) (xStart xEnd lineWidth : Q) : Q :=
  match alignment with
  | alignLeft => xStart
  | alignCenter => xStart + (xEnd - xStart) / 2 - lineWidth / 2
  | alignRight => xEnd - lineWidth
  end.

(** The closure [fixLine], with the variables it captures as arguments. *)
Definition fixLine (alignment : Alignment) (xStart xEnd lineWidth : Q)
    (currentLine : list RenderItem) : list RenderItem :=
  placeItems (lineStart alignment xStart xEnd lineWidth) currentLine.

(** The first loop of [fixAlignment] and the [push] that follows it: the
    array [lineHeights], and the value [lineHeight] is left with. *)
Fixpoint collectLineHeights (parts : list RenderItem) (lineHeight : Q)
  : list Q * Q :=
  match parts with
  | [] => ([lineHeight], lineHeight)
  | item :: rest =>
      let lineHeight' := Qmax lineHeight (height item) in
      if isNewline item then
        let '(hs, final) := collectLineHeights rest lineHeight' in
        (lineHeight' :: hs, final)
      else collectLineHeights rest lineHeight'
  end.

(** The second loop of [fixAlignment] and the final [fixLine()].  The items
    of the array are updated in place, so the result lists them in the order
    of the array: the lines already fixed, then the rest. *)
Fixpoint alignLoop (alignment : Alignment) (xStart xEnd : Q)
    (lineHeights : list Q) (parts : list RenderItem)
    (y0 : Q) (line : nat) (lineWidth lineHeight : Q)
    (currentLine : list RenderItem) : list RenderItem :=
  match parts with
  | [] => fixLine alignment xStart xEnd lineWidth currentLine
  | item :: rest =>
      let lineHeight1 := Qmax lineHeight (height item) in
      let item1 := set_y y0 item in
      let lineWidth1 := lineWidth + width item1 in
      match type item1 with
      | newline_ =>
          fixLine alignment xStart xEnd lineWidth1 (currentLine ++ [item1]) ++
          alignLoop alignment xStart xEnd lineHeights rest
            (y0 + or_zero (nth (S line) lineHeights 0)) (S line) 0 0 []
      | character_ _ style =>
          alignLoop alignment xStart xEnd lineHeights rest
            y0 line (lineWidth1 + letterSpacing style) lineHeight1
            (currentLine ++ [set_width (width item1 + letterSpacing style) item1])
      end
  end.

Definition fixAlignment (alignment : Alignment) (xStart xEnd yStart : Q)
    (parts : list RenderItem) : list RenderItem :=
  let '(lineHeights, lineHeight) := collectLineHeights parts 0 in
  alignLoop alignment xStart xEnd lineHeights parts yStart 0 0 lineHeight [].

(** ** Vocabulary for the statements about alignment *)

Definition sumQ (l : list Q) : Q := fold_right Qplus 0 l.

(** The line an item of index [i] lies on: the number of newline items
    before it. *)
Definition lineOf (parts : list RenderItem) (i : nat) : nat :=
  length (List.filter isNewline (take i parts)).

(** A character item with its own letter spacing added to its width. *)
Definition addSpacing (item : RenderItem) : RenderItem :=
  match type item with
  | character_ _ style => set_width (width item + letterSpacing style) item
  | newline_ => item
  end.

(** The cursor [y] after [n] more newline items, from line [line] on. *)
Fixpoint yAfterLines (lineHeights : list Q) (line n : nat) (y0 : Q) : Q :=
  match n with
  | O => y0
  | S n' =>
      yAfterLines lineHeights (S line) n'
        (y0 + or_zero (nth (S line) lineHeights 0))
  end.

(** The values of [y] the second loop assigns, item by item. *)
Fixpoint ysFrom (lineHeights : list Q) (parts : list RenderItem)
    (y0 : Q) (line : nat) : list Q :=
  match parts with
  | [] => []
  | item :: rest =>
      y0 :: (if isNewline item
             then ysFrom lineHeights rest
                    (y0 + or_zero (nth (S line) lineHeights 0)) (S line)
             else ysFrom lineHeights rest y0 line)
  end.

(** The running [lineWidth] after the character items [parts]. *)
Definition lineWidthAfter (lineWidth : Q) (parts : list RenderItem) : Q :=
  fold_left (fun acc item => acc + width item +
               match type item with
               | character_ _ style => letterSpacing style
               | newline_ => 0
               end) parts lineWidth.

(** Line heights as the specification words them: for each line, the
    greatest height among the items of that line alone, its closing newline
    included. *)
Fixpoint lineHeightsBySpec (parts : list RenderItem) (lineHeight : Q) : list Q :=
  match parts with
  | [] => [lineHeight]
  | item :: rest =>
      if isNewline item
      then Qmax lineHeight (height item) :: lineHeightsBySpec rest 0
      else lineHeightsBySpec rest (Qmax lineHeight (height item))
  end.

(** ** Vocabulary for the statements about drawing *)

Definition isDrawCall (op : CanvasOp) : bool :=
  match op with
  | StrokeText _ _ _ | FillText _ _ _ => true
  | _ => false
  end.

(** The [strokeText] and [fillText] calls among canvas operations. *)
Definition drawCalls (ops : Canvas) : Canvas := List.filter isDrawCall ops.

(** One [strokeText] per character item whose style has a stroke. *)
Definition strokeCalls (parts : list RenderItem) : Canvas :=
  flat_map (fun part =>
    match type part with
    | character_ c style =>
        if hasStroke style then [StrokeText c (x part) (y part)] else []
    | newline_ => []
    end) parts.

(** One [fillText] per character item. *)
Definition fillCalls (parts : list RenderItem) : Canvas :=
  flat_map (fun part =>
    match type part with
    | character_ c style => [FillText c (x part) (y part)]
    | newline_ => []
    end) parts.

(** ** Vocabulary for the statements about quoting *)

(** An item [quote] passes over: a newline item or a whitespace character. *)
Definition blank (item : RenderItem) : bool :=
  match type item with
  | character_ c _ => isWhitespace c
  | newline_ => true
  end.

(** The index of the last item of [items] that is not blank, the first
    item having index [i]; [lastChar] when there is none. *)
Fixpoint scanLast (items : list RenderItem) (i : nat) (lastChar : Z) : Z :=
  match items with
  | [] => lastChar
  | item :: rest =>
      scanLast rest (S i) (if blank item then lastChar else Z.of_nat i)
  end.

(** ** Vocabulary for the statements about style changes *)

Definition isSetFont (op : CanvasOp) : bool :=
  match op with SetFont _ => true | _ => false end.

(** How often a canvas has been given a font, which every application of
    a text style does once. *)
Definition styleApplications (ops : Canvas) : nat :=
  length (List.filter isSetFont ops).

(** The style objects of the character items, in order. *)
Definition charStyles (parts : list RenderItem) : list ITextStyle :=
  flat_map (fun part =>
    match type part with
    | character_ _ style => [style]
    | newline_ => []
    end) parts.

(** The number of places in [styles] where the style object is not the one
    before it, [current] being the one before the first. *)
Fixpoint styleSwitches (current : option ITextStyle) (styles : list ITextStyle)
  : nat :=
  match styles with
  | [] => O
  | style :: rest =>
      (match current with
       | Some cur => if sameObject style cur then 0 else 1
       | None => 1
       end + styleSwitches (Some style) rest)%nat
  end.



(** ** Sample data *)

Definition sampleStyle : ITextStyle :=
  {| objectId := 0; fontName := "aller"; fontSize := 24;
     isBold := false; isUnderlined := false; isStrikethrough := false;
     isItalic := false; color := "white"; strokeWidth := 4;
     strokeColor := "black"; letterSpacing := 0; lineSpacing := 1;
     alpha := 1 |}.

(** A character item of the given height, width and letter spacing. *)
Definition sampleChar (c : character) (h w spacing : Q) : RenderItem :=
  {| type := character_ c
       {| objectId := 0; fontName := "aller"; fontSize := 24;
          isBold := false; isUnderlined := false; isStrikethrough := false;
          isItalic := false; color := "white"; strokeWidth := 4;
          strokeColor := "black"; letterSpacing := spacing; lineSpacing := 1;
          alpha := 1 |};
     x := 0; y := 0; height := h; width := w |}.

Definition sampleNewline (h : Q) : RenderItem :=
  {| type := newline_; x := 0; y := 0; height := h; width := 0 |}.

(** A style object that differs from [sampleStyle] in identity, weight,
    slant, stroke and line spacing, but not in font size or family. *)
Definition sampleBoldStyle : ITextStyle :=
  {| objectId := 1; fontName := "aller"; fontSize := 24;
     isBold := true; isUnderlined := false; isStrikethrough := false;
     isItalic := true; color := "white"; strokeWidth := 0;
     strokeColor := ""; letterSpacing := 0; lineSpacing := 3 # 2;
     alpha := 1 |}.

(** Host primitives to run the definitions on: integers print in decimal,
    every glyph is ten units wide, a line is as high as its font size, and
    the host state counts the style objects allocated so far. *)
Definition sampleNumberToString (v : Q) : string :=
  pretty (Qnum v / Zpos (Qden v))%Z.
Definition sampleMeasureText (ctx : Canvas) (c : character) : Q := 10.
Definition sampleOffsetHeight (family : string) (size : Q) : Q := size.

Definition sampleBold (style : ITextStyle) (arg : option string) (next : nat)
  : ITextStyle * nat :=
  ({| objectId := next; fontName := fontName style; fontSize := fontSize style;
      isBold := true; isUnderlined := isUnderlined style;
      isStrikethrough := isStrikethrough style; isItalic := isItalic style;
      color := color style; strokeWidth := strokeWidth style;
      strokeColor := strokeColor style; letterSpacing := letterSpacing style;
      lineSpacing := lineSpacing style; alpha := alpha style |}, S next).

Definition sampleItalic (style : ITextStyle) (arg : option string) (next : nat)
  : ITextStyle * nat :=
  ({| objectId := next; fontName := fontName style; fontSize := fontSize style;
      isBold := isBold style; isUnderlined := isUnderlined style;
      isStrikethrough := isStrikethrough style; isItalic := true;
      color := color style; strokeWidth := strokeWidth style;
      strokeColor := strokeColor style; letterSpacing := letterSpacing style;
      lineSpacing := lineSpacing style; alpha := alpha style |}, S next).

Definition sampleCommands
  : gmap string (ITextStyle -> option string -> nat -> ITextStyle * nat) :=
  <["b" := sampleBold]> (<["i" := sampleItalic]> ∅).

Definition sampleEnv : Env nat :=
  {| heightCache := ∅; lastStyle := None; tmpContext := [];
     layoutLog := []; host := 1%nat |}.

(** [sampleEnv] once the height of the 24 unit font has been measured. *)
Definition sampleWarmEnv : Env nat :=
  {| heightCache := <["24 aller" := 24]> ∅; lastStyle := None; tmpContext := [];
     layoutLog := [("aller", 24)]; host := 1%nat |}.

Definition sampleB : ICommandToken :=
  {| commandName := "b"; argument := None; pos := 3%N |}.
Definition sampleI : ICommandToken :=
  {| commandName := "i"; argument := None; pos := 6%N |}.

(** The tokens of a line [Hel], bold [lo], a line break and [World]. *)
Definition sampleTokens : list Token :=
  [ TText [72; 101; 108]%N; TCommand sampleB; TText [108; 111]%N;
    TCommandClose "b" 8%N; TNewline; TText [87; 111; 114; 108; 100]%N ].

(** A stream that ends inside a bold run. *)
Definition sampleUnclosed : list Token :=
  [ TText [72; 101; 108]%N; TCommand sampleB; TText [108; 111]%N ].

(** Bold, then italic inside it, both still open. *)
Definition sampleCrossing : list Token :=
  [ TText [72]%N; TCommand sampleB; TText [101]%N; TCommand sampleI;
    TText [108]%N ].

(** An italic run, closed. *)
Definition sampleInner : list Token :=
  [ TText [108]%N; TCommand sampleI; TText [111]%N; TCommandClose "i" 12%N ].

(** Two spaces, [Hi] and a line break. *)
Definition sampleParts : list RenderItem :=
  [ sampleChar 32%N 24 10 0; sampleChar 32%N 24 10 0;
    sampleChar 72%N 24 10 0; sampleChar 105%N 24 10 0; sampleNewline 24 ].

(** A line ten high, then a line twenty high. *)
Definition sampleRisingLines : list RenderItem :=
  [ sampleChar 65%N 10 10 0; sampleNewline 10; sampleChar 66%N 20 10 0 ].

(** Lines twenty, ten and five high. *)
Definition sampleFallingLines : list RenderItem :=
  [ sampleChar 65%N 20 10 0; sampleNewline 20; sampleChar 66%N 10 10 0;
    sampleNewline 10; sampleChar 67%N 5 10 0 ].

(** One line of two characters, ten wide, with letter spacings 2 and 5. *)
Definition sampleSpacedLine : list RenderItem :=
  [ sampleChar 65%N 24 10 2; sampleChar 66%N 24 10 5 ].

(** One line of widths 10, 10, 10, and one of widths 8 and 12. *)
Definition sampleLine30 : list RenderItem :=
  [ sampleChar 65%N 24 10 0; sampleChar 66%N 24 10 0; sampleChar 67%N 24 10 0 ].
Definition sampleLine20 : list RenderItem :=
  [ sampleChar 65%N 24 8 0; sampleChar 66%N 24 12 0 ].

(** ** Sprites ([src/models/sprite.ts]) *)

(** The result of a division of two numbers, as [ratio] holds it: the
    quotient, or what JavaScript gives for a zero divisor. *)
Inductive JsNumber :=
| Finite (v : Q)
| PlusInfinity
| MinusInfinity
| NaN.


(** The argument of [RenderContext.drawImage]. *)
Module DrawImage.
Record Shadow := { blur : Q; color : string }.

(** [HTMLImageElement], as far as a sprite reads it. *)
Record Image := { imageWidth : Q; imageHeight : Q }.

Record t := {
  image : Image;
  x : Q;
  y : Q;
  w : Q;
  h : Q;
  shadow : option Shadow;
  flip : bool;
  opacity : Q
}.
End DrawImage.

Module Sprite.

(** The fields of [class Sprite]. *)
Record t := {
  infront : bool;
  x : Q;
  y : Q;
  width : Q;
  height : Q;
  ratio : JsNumber;
  lockedRatio : bool;
  flip : bool;
  opacity : Q;
  asset : option DrawImage.Image;
  selected : bool;
  assetName : string
}.





(** [render(rx)]: the [drawImage] calls made on [rx]. *)
Definition render (s : t) : list DrawImage.t :=
  match asset s with
  | None => []
  | Some img =>
      [ {| DrawImage.image := img;
           DrawImage.x := x s;
           DrawImage.y := y s;
           DrawImage.w := width s;
           DrawImage.h := height s;
           DrawImage.shadow :=
             if selected s
             then Some {| DrawImage.blur := 20; DrawImage.color := "red" |}
             else None;
           DrawImage.flip := flip s;
           DrawImage.opacity := opacity s |} ]
  end.

End Sprite.

(** ** The Electron environment ([src/environments/electron.ts]) *)

(** [s.split(sep)] for a separator of one character. *)
Fixpoint splitOn (sep : Ascii.ascii) (s : string) : list string :=
  match s with
  | EmptyString => [EmptyString]
  | String c rest =>
      if Ascii.eqb c sep then EmptyString :: splitOn sep rest
      else match splitOn sep rest with
           | segment :: segments => String c segment :: segments
           | [] => [String c EmptyString]
           end
  end.

(** Whether the character [c] occurs in [s]. *)
Fixpoint occursIn (c : Ascii.ascii) (s : string) : bool :=
  match s with
  | EmptyString => false
  | String c' rest => Ascii.eqb c' c || occursIn c rest
  end.


Module Electron.
(** An entry of [installedBackgroundsPack.backgrounds]. *)
Record Background := {
  id : string;
  variants : list (list string);
  label : string;
  scaling : string
}.

(** The second argument of [$store.dispatch]. *)
Inductive Payload :=
| FilePath (filePath : string)
| FilePaths (filePaths : list string)
| InstalledBackgroundsPack (backgrounds : list Background).

(** The calls the environment makes on its collaborators.  [Transaction]
    is [vuexHistory.transaction] with a callback that dispatches the
    given action on the store. *)
Inductive Effect :=
| Send (channel : string)
| RegisterAssetWithURL (name url : string)
| Transaction (action : string) (payload : Payload)
| RequestAnimationFrame (handle : N)
| CancelAnimationFrame (handle : N)
| FireShowMessage (message : string).

(** The fields of [class Electron] the modelled handlers use, the
    [backgrounds] array of the module-level [installedBackgroundsPack]
    (its other fields stay empty), and the calls made so far.
    [vuexHistory] and [store] stand for the two references
    [connectToStore] receives. *)
Record State := {
  downloadLocation : string;
  autoAdd : list string;
  vuexHistory : option nat;
  store : option nat;
  bgInvalidation : option N;
  pendingContentPacks : list string;
  installedBackgrounds : list Background;
  effects : list Effect
}.

(** The field initializers, and the [send('init-dddg')] that ends the
    constructor. *)
Definition initial : State :=
  {| downloadLocation := ""; autoAdd := []; vuexHistory := None;
     store := None; bgInvalidation := None; pendingContentPacks := [];
     installedBackgrounds := []; effects := [Send "init-dddg"] |}.

Definition emit (e : Effect) (st : State) : State :=
  {| downloadLocation := downloadLocation st; autoAdd := autoAdd st;
     vuexHistory := vuexHistory st; store := store st;
     bgInvalidation := bgInvalidation st;
     pendingContentPacks := pendingContentPacks st;
     installedBackgrounds := installedBackgrounds st;
     effects := effects st ++ [e] |}.

Definition set_bgInvalidation (v : option N) (st : State) : State :=
  {| downloadLocation := downloadLocation st; autoAdd := autoAdd st;
     vuexHistory := vuexHistory st; store := store st;
     bgInvalidation := v;
     pendingContentPacks := pendingContentPacks st;
     installedBackgrounds := installedBackgrounds st;
     effects := effects st |}.

Definition connected (st : State) : bool :=
  match vuexHistory st, store st with
  | Some _, Some _ => true
  | _, _ => false
  end.

(** [invalidateInstalledBGs()]; [handle] is what
    [requestAnimationFrame] returns if it is called. *)
Definition invalidateInstalledBGs (handle : N) (st : State) : State :=
  if negb (connected st) then st
  else match bgInvalidation st with
       | Some _ => st
       | None =>
           set_bgInvalidation (Some handle)
             (emit (RequestAnimationFrame handle) st)
       end.

(** [updateInstalledBGs()], the callback of the animation frame. *)
Definition updateInstalledBGs (st : State) : State :=
  let st1 :=
    match bgInvalidation st with
    | Some handle =>
        if (handle =? 0)%N then st
        else set_bgInvalidation None (emit (CancelAnimationFrame handle) st)
    | None => st
    end in
  if negb (connected st1) then st1
  else emit (Transaction "content/replaceContentPack"
               (InstalledBackgroundsPack (installedBackgrounds st1))) st1.

(** The listener of ['add-persistent-content-pack']. *)
Definition onAddPersistentContentPack (filePath : string) (st : State)
  : State :=
  if negb (connected st) then
    {| downloadLocation := downloadLocation st; autoAdd := autoAdd st;
       vuexHistory := vuexHistory st; store := store st;
       bgInvalidation := bgInvalidation st;
       pendingContentPacks := pendingContentPacks st ++ [filePath];
       installedBackgrounds := installedBackgrounds st;
       effects := effects st |}
  else emit (Transaction "content/loadContentPacks" (FilePath filePath)) st.

(** The listener of ['add-persistent-background']. *)
Definition onAddPersistentBackground (filepath : string) (handle : N)
    (st : State) : State :=
  let name := "persistentBg-" +:+ filepath in
  let parts := splitOn "/"%char filepath in
  let st1 := emit (RegisterAssetWithURL name filepath) st in
  let st2 :=
    {| downloadLocation := downloadLocation st1; autoAdd := autoAdd st1;
       vuexHistory := vuexHistory st1; store := store st1;
       bgInvalidation := bgInvalidation st1;
       pendingContentPacks := pendingContentPacks st1;
       installedBackgrounds :=
         installedBackgrounds st1 ++
         [ {| id := name; variants := [[name]];
              label := List.last parts ""; scaling := "none" |} ];
       effects := effects st1 |} in
  invalidateInstalledBGs handle st2.

(** The listener of ['push-message']. *)
Definition onPushMessage (message : string) (st : State) : State :=
  emit (FireShowMessage message) st.

(** The listener of ['config.downloadFolderUpdate']. *)
Definition onDownloadFolderUpdate (location : string) (st : State) : State :=
  {| downloadLocation := location; autoAdd := autoAdd st;
     vuexHistory := vuexHistory st; store := store st;
     bgInvalidation := bgInvalidation st;
     pendingContentPacks := pendingContentPacks st;
     installedBackgrounds := installedBackgrounds st;
     effects := effects st |}.

(** The listener of ['auto-load.changed']. *)
Definition onAutoLoadChanged (packIds : list string) (st : State) : State :=
  {| downloadLocation := downloadLocation st; autoAdd := packIds;
     vuexHistory := vuexHistory st; store := store st;
     bgInvalidation := bgInvalidation st;
     pendingContentPacks := pendingContentPacks st;
     installedBackgrounds := installedBackgrounds st;
     effects := effects st |}.

(** [connectToStore(vuexHistory, store)]. *)
Definition connectToStore (history storeRef : nat) (handle : N)
    (st : State) : State :=
  let st1 :=
    {| downloadLocation := downloadLocation st; autoAdd := autoAdd st;
       vuexHistory := Some history; store := Some storeRef;
       bgInvalidation := bgInvalidation st;
       pendingContentPacks := pendingContentPacks st;
       installedBackgrounds := installedBackgrounds st;
       effects := effects st |} in
  let st2 := invalidateInstalledBGs handle st1 in
  if (0 <? length (pendingContentPacks st2))%nat then
    emit (Transaction "content/loadContentPacks"
            (FilePaths (pendingContentPacks st2))) st2
  else st2.

(** What reaches the environment from outside: a message on one of the
    channels above, the call of [connectToStore], or the animation frame
    that was requested. *)
Inductive Event :=
| AddPersistentContentPack (filePath : string)
| AddPersistentBackground (filepath : string) (handle : N)
| PushMessage (message : string)
| DownloadFolderUpdate (location : string)
| AutoLoadChanged (packIds : list string)
| ConnectToStore (history storeRef : nat) (handle : N)
| AnimationFrame.

Definition step (st : State) (e : Event) : State :=
  match e with
  | AddPersistentContentPack filePath =>
      onAddPersistentContentPack filePath st
  | AddPersistentBackground filepath handle =>
      onAddPersistentBackground filepath handle st
  | PushMessage message => onPushMessage message st
  | DownloadFolderUpdate location => onDownloadFolderUpdate location st
  | AutoLoadChanged packIds => onAutoLoadChanged packIds st
  | ConnectToStore history storeRef handle =>
      connectToStore history storeRef handle st
  | AnimationFrame => updateInstalledBGs st
  end.

Definition run (events : list Event) (st : State) : State :=
  fold_left step events st.

(** The frame handle an event brings along, if it does. *)
Definition eventHandle (e : Event) : option N :=
  match e with
  | AddPersistentBackground _ handle | ConnectToStore _ _ handle =>
      Some handle
  | _ => None
  end.

Definition isTransaction (e : Effect) : bool :=
  match e with Transaction _ _ => true | _ => false end.
Definition isFrameRequest (e : Effect) : bool :=
  match e with RequestAnimationFrame _ => true | _ => false end.
Definition isConnect (e : Event) : bool :=
  match e with ConnectToStore _ _ _ => true | _ => false end.
Definition isAnimationFrame (e : Event) : bool :=
  match e with AnimationFrame => true | _ => false end.
End Electron.


(** ** The renderer over its host primitives *)

Section Renderer.

(** What the module takes from its host and its imports: the printing of a
    number inside a string concatenation, [measureText(c).width] on a canvas
    context in a given state, the [offsetHeight] the layout engine reports
    for the probe of a font family and size, and the table of text commands
    (module [textCommands], not among the sources at hand).  A command is
    called with the style object and the argument; it returns a style
    object, and may allocate it, which is what the state [Host] is for. *)
Variable numberToString : Q -> string.
Variable measureText : Canvas -> character -> Q.
Variable offsetHeight : string -> Q -> Q.
Variable Host : Type.
Variable textCommands :
  gmap string (ITextStyle -> option string -> Host -> ITextStyle * Host).

Definition applyTextStyleToCanvas (style : ITextStyle) (ctx : Canvas) : Canvas :=
  ctx ++
  [ SetTextAlign "left";
    SetFont ((if isItalic style then "italic " else "") +:+
             (if isBold style then "bold " else "") +:+
             numberToString (fontSize style) +:+ "px " +:+ fontName style);
    SetLineJoin "round" ] ++
  (if hasStroke style
   then [SetStrokeStyle (strokeColor style); SetLineWidth (strokeWidth style)]
   else [SetStrokeStyle ""; SetLineWidth 0]) ++
  [ SetGlobalAlpha (or_zero (alpha style));
    SetFillStyle (color style) ].

Definition measureWidth (textStyle : ITextStyle) (c : character) (env : Env Host)
  : Q * Env Host :=
  let env' :=
    match lastStyle env with
    | Some l =>
        if sameObject textStyle l then env
        else {| heightCache := heightCache env;
                lastStyle := Some textStyle;
                tmpContext := applyTextStyleToCanvas textStyle (tmpContext env);
                layoutLog := layoutLog env;
                host := host env |}
    | None =>
        {| heightCache := heightCache env;
           lastStyle := Some textStyle;
           tmpContext := applyTextStyleToCanvas textStyle (tmpContext env);
           layoutLog := layoutLog env;
           host := host env |}
    end in
  (measureText (tmpContext env') c, env').

(** The key of [heightCache]. *)
Definition fontKey (textStyle : ITextStyle) : string :=
  numberToString (fontSize textStyle) +:+ " " +:+ fontName textStyle.

Definition measureHeight (textStyle : ITextStyle) (env : Env Host) : Q * Env Host :=
  let font := fontKey textStyle in
  match heightCache env !! font with
  | Some h => (h * lineSpacing textStyle, env)
  | None =>
      let height := offsetHeight (fontName textStyle) (fontSize textStyle) in
      (height * lineSpacing textStyle,
       {| heightCache := <[font := height]> (heightCache env);
          lastStyle := lastStyle env;
          tmpContext := tmpContext env;
          layoutLog := layoutLog env ++ [(fontName textStyle, fontSize textStyle)];
          host := host env |})
  end.

(** *** The style-stack interpreter *)

(** The body of [case 'text']. *)
Fixpoint pushCharacters (content : list character) (style : ITextStyle)
    (h : Q) (parts : list RenderItem) (env : Env Host) : list RenderItem * Env Host :=
  match content with
  | [] => (parts, env)
  | c :: content' =>
      let '(w, env') := measureWidth style c env in
      pushCharacters content' style h
        (parts ++ [ {| type := character_ c style; x := 0; y := 0;
                       height := h; width := w |} ]) env'
  end.

(** One iteration of the [for (const token of tokens)] loop. *)
Definition interpretToken (token : Token) (st : Interp) (env : Env Host)
  : Res (Interp * Env Host) :=
  match token with
  | TCommand tok =>
      match textCommands !! commandName tok with
      | Some command =>
          let '(style', host') := command (currentStyle st) (argument tok) (host env) in
          let env1 := {| heightCache := heightCache env;
                         lastStyle := lastStyle env;
                         tmpContext := tmpContext env;
                         layoutLog := layoutLog env;
                         host := host' |} in
          let '(h, env2) := measureHeight style' env1 in
          Ok ({| renderParts := renderParts st;
                 styleStack := currentStyle st :: styleStack st;
                 tagStack := currentTag st :: tagStack st;
                 currentStyleHeight := h;
                 currentStyle := style';
                 currentTag := Some tok |}, env2)
      | None => Throw (UnknownCommand (commandName tok) (pos tok))
      end
  | TCommandClose name p =>
      match currentTag st with
      | None => Throw (UnmatchedClose name p)
      | Some open =>
          if bool_decide (name = commandName open) then
            match tagStack st, styleStack st with
            | tag :: tags, style :: styles =>
                Ok ({| renderParts := renderParts st;
                       styleStack := styles;
                       tagStack := tags;
                       currentStyleHeight := currentStyleHeight st;
                       currentStyle := style;
                       currentTag := tag |}, env)
            | _, _ => Throw UndefinedAccess
            end
          else Throw (MismatchedClose name p open)
      end
  | TNewline =>
      Ok ({| renderParts :=
               renderParts st ++
               [ {| type := newline_; x := 0; y := 0;
                    height := currentStyleHeight st; width := 0 |} ];
             styleStack := styleStack st;
             tagStack := tagStack st;
             currentStyleHeight := currentStyleHeight st;
             currentStyle := currentStyle st;
             currentTag := currentTag st |}, env)
  | TText content =>
      let '(parts, env') :=
        pushCharacters content (currentStyle st) (currentStyleHeight st)
          (renderParts st) env in
      Ok ({| renderParts := parts;
             styleStack := styleStack st;
             tagStack := tagStack st;
             currentStyleHeight := currentStyleHeight st;
             currentStyle := currentStyle st;
             currentTag := currentTag st |}, env')
  end.

Fixpoint interpretTokens (tokens : list Token) (st : Interp) (env : Env Host)
  : Res (Interp * Env Host) :=
  match tokens with
  | [] => Ok (st, env)
  | token :: rest =>
      match interpretToken token st env with
      | Ok (st', env') => interpretTokens rest st' env'
      | Throw e => Throw e
      end
  end.

(** The variables as they stand before the loop. *)
Definition initialInterp (baseStyle : ITextStyle) (h : Q) : Interp :=
  {| renderParts := [];
     styleStack := [];
     tagStack := [];
     currentStyleHeight := h;
     currentStyle := baseStyle;
     currentTag := None |}.

Definition getRenderParts (tokens : list Token) (baseStyle : ITextStyle)
    (env : Env Host) : Res (list RenderItem * Env Host) :=
  let '(h, env0) := measureHeight baseStyle env in
  match interpretTokens tokens (initialInterp baseStyle h) env0 with
  | Ok (st, env') => Ok (renderParts st, env')
  | Throw e => Throw e
  end.

(** *** Quoting *)

(** [parts.splice(i, 0, item)]. *)
Definition splice (i : nat) (item : RenderItem) (parts : list RenderItem)
  : list RenderItem :=
  take i parts ++ item :: drop i parts.

(** The object literal both [splice] calls of [quote] build. *)
Definition quoteItem (style : ITextStyle) (h w : Q) : RenderItem :=
  {| type := character_ quoteChar style; x := 0; y := 0;
     height := h; width := w |}.

(** The [for] loop of [quote], from index [i] on.  The array grows while
    the loop runs, so the recursion is on a step budget; [quote] provides
    one that is never used up (see [quote_total]). *)
Fixpoint quoteLoop (budget i : nat) (parts : list RenderItem) (lastChar : Z)
    (quoted : bool) (env : Env Host)
  : option (list RenderItem * Z * bool * Env Host) :=
  match budget with
  | O => None
  | S budget' =>
      match parts !! i with
      | None => Some (parts, lastChar, quoted, env)
      | Some part =>
          match type part with
          | newline_ => quoteLoop budget' (S i) parts lastChar quoted env
          | character_ c style =>
              if isWhitespace c then
                quoteLoop budget' (S i) parts lastChar quoted env
              else if quoted then
                quoteLoop budget' (S i) parts (Z.of_nat i) quoted env
              else
                let '(w, env') := measureWidth style quoteChar env in
                quoteLoop budget' (S i)
                  (splice i (quoteItem style (height part) w) parts)
                  (Z.of_nat i) true env'
          end
      end
  end.

(** [quote()].  [None] stands for a run that does not complete: an
    exhausted budget, or a read through [undefined]. *)
Definition quote (parts : list RenderItem) (env : Env Host)
  : option (list RenderItem * Env Host) :=
  match quoteLoop (length parts + 2) 0 parts (-1)%Z false env with
  | None => None
  | Some (parts', lastChar, quoted, env') =>
      if quoted && (0 <=? lastChar)%Z then
        match parts' !! Z.to_nat lastChar with
        | Some part =>
            match type part with
            | character_ _ style =>
                let '(w, env'') := measureWidth style quoteChar env' in
                Some (splice (Z.to_nat lastChar + 1)
                        (quoteItem style (height part) w) parts', env'')
            | newline_ => None
            end
        | None => None
        end
      else Some (parts', env')
  end.

(** *** Drawing *)

(** [if (part.style !== currentStyle) { currentStyle = part.style; apply }],
    returning the style [currentStyle] then holds. *)
Definition switchStyle (style : ITextStyle) (currentStyle : option ITextStyle)
    (ctx : Canvas) : ITextStyle * Canvas :=
  match currentStyle with
  | Some cur =>
      if sameObject style cur then (cur, ctx)
      else (style, applyTextStyleToCanvas style ctx)
  | None => (style, applyTextStyleToCanvas style ctx)
  end.

(** The first loop of [render]. *)
Fixpoint strokePass (parts : list RenderItem) (currentStyle : option ITextStyle)
    (ctx : Canvas) : option ITextStyle * Canvas :=
  match parts with
  | [] => (currentStyle, ctx)
  | part :: rest =>
      match type part with
      | newline_ => strokePass rest currentStyle ctx
      | character_ c style =>
          let '(cur, ctx1) := switchStyle style currentStyle ctx in
          let ctx2 :=
            if hasStroke cur then ctx1 ++ [StrokeText c (x part) (y part)]
            else ctx1 in
          strokePass rest (Some cur) ctx2
      end
  end.

(** The second loop of [render]. *)
Fixpoint fillPass (parts : list RenderItem) (currentStyle : option ITextStyle)
    (ctx : Canvas) : option ITextStyle * Canvas :=
  match parts with
  | [] => (currentStyle, ctx)
  | part :: rest =>
      match type part with
      | newline_ => fillPass rest currentStyle ctx
      | character_ c style =>
          let '(cur, ctx1) := switchStyle style currentStyle ctx in
          fillPass rest (Some cur) (ctx1 ++ [FillText c (x part) (y part)])
      end
  end.

Definition render (parts : list RenderItem) (ctx : Canvas) : Canvas :=
  let ctx0 := ctx ++ [Save] in
  let '(cur, ctx1) := strokePass parts None ctx0 in
  let '(_, ctx2) := fillPass parts cur ctx1 in
  ctx2 ++ [Restore].

(** *** Vocabulary for the statements about the interpreter *)

(** What an item is, apart from its geometry and style. *)
Inductive Shape :=
| SCharacter (c : character)
| SNewline.

Definition shape (item : RenderItem) : Shape :=
  match type item with
  | character_ c _ => SCharacter c
  | newline_ => SNewline
  end.

(** The items a token stands for: one per character of a text run, one per
    newline token, none for a tag. *)
Definition tokenShapes (token : Token) : list Shape :=
  match token with
  | TText content => map SCharacter content
  | TNewline => [SNewline]
  | TCommand _ | TCommandClose _ _ => []
  end.

(** The same, counting only the characters of a text run that are not the
    newline character. *)
Definition tokenShapesNoNewline (token : Token) : list Shape :=
  match token with
  | TText content =>
      map SCharacter (filter (fun c => c <> newlineChar) content)
  | TNewline => [SNewline]
  | TCommand _ | TCommandClose _ _ => []
  end.

(** A text run holds no newline character (they are newline tokens). *)
Definition textWithoutNewline (token : Token) : Prop :=
  match token with
  | TText content => Forall (fun c => c <> newlineChar) content
  | _ => True
  end.

(** The tags of a token stream that are open after it, innermost first,
    starting from the tags [opened]; [None] when the stream names a command
    that is not registered, or closes anything but the innermost open tag. *)
Fixpoint openTags (tokens : list Token) (opened : list ICommandToken)
  : option (list ICommandToken) :=
  match tokens with
  | [] => Some opened
  | TCommand tok :: rest =>
      match textCommands !! commandName tok with
      | Some _ => openTags rest (tok :: opened)
      | None => None
      end
  | TCommandClose name _ :: rest =>
      match opened with
      | tag :: opened' =>
          if bool_decide (name = commandName tag) then openTags rest opened'
          else None
      | [] => None
      end
  | (TText _ | TNewline) :: rest => openTags rest opened
  end.

(** The open tags and the styles in force as the interpreter holds them:
    the current one, then the stack. *)
Definition tagView (st : Interp) : list (option ICommandToken) :=
  currentTag st :: tagStack st.
Definition styleView (st : Interp) : list ITextStyle :=
  currentStyle st :: styleStack st.

Definition unplaced (item : RenderItem) : Prop := x item = 0 /\ y item = 0.

(** The height cache of [env'] extends the one of [env], with one new entry
    for each layout measurement logged in between. *)
Definition cacheGrows (env env' : Env Host) : Prop :=
  heightCache env ⊆ heightCache env' /\
  (size (heightCache env') + length (layoutLog env)
   = size (heightCache env) + length (layoutLog env'))%nat.


(** ** Properties of the metrics helpers *)

Lemma measureHeight_hit (style : ITextStyle) (env : Env Host) (base : Q) :
  heightCache env !! fontKey style = Some base ->
  measureHeight style env = (base * lineSpacing style, env).
Proof.
  intros Hhit. unfold measureHeight. now rewrite Hhit.
Qed.

Lemma fontKey_depends_on_font (s1 s2 : ITextStyle) :
  fontSize s1 = fontSize s2 -> fontName s1 = fontName s2 ->
  fontKey s1 = fontKey s2.
Proof.
  intros Hsize Hname. unfold fontKey. now rewrite Hsize, Hname.
Qed.

(** C8: the height cache is keyed by the font size and family alone, and
    the line spacing is applied after the lookup.  When the descriptor of a
    style is cached with base height [base], [measureHeight] leaves the
    whole module state as it is (no layout measurement is logged, the cache
    is not touched) and returns [base * lineSpacing]; any other style of the
    same font size and family, whatever its line spacing, weight, slant or
    stroke, has the same key and is served from the same entry. *)
Theorem measureHeight_cached_shared_entry
    (s1 s2 : ITextStyle) (env : Env Host) (base : Q) :
  fontSize s1 = fontSize s2 ->
  fontName s1 = fontName s2 ->
  heightCache env !! fontKey s1 = Some base ->
  fontKey s1 = fontKey s2 /\
  measureHeight s1 env = (base * lineSpacing s1, env) /\
  measureHeight s2 env = (base * lineSpacing s2, env).
Proof.
  intros Hsize Hname Hhit.
  pose proof (fontKey_depends_on_font s1 s2 Hsize Hname) as Hkey.
  split; [exact Hkey|]. split.
  - now apply measureHeight_hit.
  - apply measureHeight_hit. now rewrite <- Hkey.
Qed.

(** ** Properties of the interpreter *)

Lemma pushCharacters_spec (content : list character) (style : ITextStyle)
    (h : Q) (parts : list RenderItem) (env : Env Host) :
  exists items,
    fst (pushCharacters content style h parts env) = parts ++ items /\
    map shape items = map SCharacter content /\
    Forall unplaced items /\
    Forall (fun item => exists c, type item = character_ c style) items.
Proof.
  revert parts env. induction content as [|c content IH]; intros parts env.
  - exists []. cbn. rewrite app_nil_r. repeat split; constructor.
  - cbn [pushCharacters]. destruct (measureWidth style c env) as [w env1].
    destruct (IH (parts ++ [mkItem (character_ c style) 0 0 h w]) env1)
      as (items & Heq & Hshape & Hzero & Hstyle).
    exists (mkItem (character_ c style) 0 0 h w :: items).
    rewrite Heq, <- app_assoc. cbn. repeat split.
    + now rewrite Hshape.
    + constructor; [now split | exact Hzero].
    + constructor; [now exists c | exact Hstyle].
Qed.

(** Running a token stream whose tags nest: the interpreter completes, its
    view of the open tags follows [openTags], whatever lay below the tags
    the stream starts from is kept as it is, and the items are extended by
    those of the stream. *)
Lemma interpretTokens_nested (tokens : list Token) :
  forall (opened opened' : list ICommandToken) (st : Interp) (env : Env Host)
         (styles : list ITextStyle)
         (tagBase : list (option ICommandToken)) (styleBase : list ITextStyle),
    openTags tokens opened = Some opened' ->
    tagView st = map Some opened ++ tagBase -> tagBase <> [] ->
    styleView st = styles ++ styleBase -> styleBase <> [] ->
    length styles = length opened ->
    exists st' env' styles',
      interpretTokens tokens st env = Ok (st', env') /\
      tagView st' = map Some opened' ++ tagBase /\
      styleView st' = styles' ++ styleBase /\
      length styles' = length opened' /\
      (exists items,
         renderParts st' = renderParts st ++ items /\
         map shape items = flat_map tokenShapes tokens /\
         Forall unplaced items).
Proof.
  induction tokens as [|token rest IH];
    intros opened opened' st env styles tagBase styleBase Hopen Htags Hbase
           Hstyles Hsbase Hlen.
  - cbn in Hopen. injection Hopen as <-.
    exists st, env, styles. repeat split; try assumption.
    exists []. rewrite app_nil_r. repeat split; constructor.
  - destruct token as [content | | tok | name p]; cbn [openTags] in Hopen.
    + (* text *)
      cbn [interpretTokens interpretToken].
      destruct (pushCharacters_spec content (currentStyle st)
                  (currentStyleHeight st) (renderParts st) env)
        as (items & Heq & Hshape & Hzero & _).
      destruct (pushCharacters content (currentStyle st)
                  (currentStyleHeight st) (renderParts st) env)
        as [parts env1] eqn:Hpush.
      cbn in Heq. subst parts.
      edestruct (IH opened opened'
                   (mkInterp (renderParts st ++ items) (styleStack st)
                      (tagStack st) (currentStyleHeight st) (currentStyle st)
                      (currentTag st)) env1 styles tagBase styleBase)
        as (st' & env' & styles' & Hrun & Ht & Hs & Hl & items' & Hparts & Hsh & Hz);
        try eassumption.
      exists st', env', styles'. repeat split; try assumption.
      exists (items ++ items'). cbn in Hparts.
      rewrite Hparts, <- app_assoc. repeat split.
      * cbn. rewrite map_app, Hshape, Hsh. reflexivity.
      * apply Forall_app; now split.
    + (* newline *)
      cbn [interpretTokens interpretToken].
      edestruct (IH opened opened'
                   (mkInterp
                      (renderParts st ++
                         [mkItem newline_ 0 0 (currentStyleHeight st) 0])
                      (styleStack st) (tagStack st) (currentStyleHeight st)
                      (currentStyle st) (currentTag st)) env styles tagBase
                   styleBase)
        as (st' & env' & styles' & Hrun & Ht & Hs & Hl & items' & Hparts & Hsh & Hz);
        try eassumption.
      exists st', env', styles'. repeat split; try assumption.
      exists (mkItem newline_ 0 0 (currentStyleHeight st) 0 :: items').
      cbn in Hparts. rewrite Hparts, <- app_assoc. repeat split.
      * cbn. now rewrite Hsh.
      * constructor; [now split | exact Hz].
    + (* command *)
      cbn [interpretTokens interpretToken].
      destruct (textCommands !! commandName tok) as [command|]; [|discriminate].
      destruct (command (currentStyle st) (argument tok) (host env))
        as [style' host'].
      match goal with
      | |- context [measureHeight style' ?e] =>
          destruct (measureHeight style' e) as [h env2]
      end.
      edestruct (IH (tok :: opened) opened'
                   (mkInterp (renderParts st)
                      (currentStyle st :: styleStack st)
                      (currentTag st :: tagStack st) h style' (Some tok))
                   env2 (style' :: styles) tagBase styleBase)
        as (st' & env' & styles' & Hrun & Ht & Hs & Hl & items' & Hparts & Hsh & Hz);
        try eassumption.
      * unfold tagView in *. cbn. now rewrite Htags.
      * unfold styleView in *. cbn. now rewrite Hstyles.
      * cbn. now rewrite Hlen.
      * exists st', env', styles'. repeat split; try assumption.
        exists items'. now repeat split.
    + (* close *)
      destruct opened as [|tag opened1]; [discriminate|].
      destruct (bool_decide (name = commandName tag)) eqn:Hname; [|discriminate].
      destruct styles as [|style styles1]; [discriminate|].
      unfold tagView, styleView in Htags, Hstyles. cbn in Htags, Hstyles.
      injection Htags as Hcur Hstack. injection Hstyles as Hcs Hss.
      injection Hlen as Hlen.
      cbn [interpretTokens interpretToken]. rewrite Hcur, Hname.
      assert (exists tag' tags', tagStack st = tag' :: tags') as (tag' & tags' & Htag').
      { rewrite Hstack. destruct opened1; cbn; [|eauto].
        destruct tagBase; [congruence | eauto]. }
      assert (exists s' ss', styleStack st = s' :: ss') as (s' & ss' & Hs').
      { rewrite Hss. destruct styles1; cbn; [|eauto].
        destruct styleBase; [congruence | eauto]. }
      rewrite Htag', Hs'.
      edestruct (IH opened1 opened'
                   (mkInterp (renderParts st) ss' tags' (currentStyleHeight st)
                      s' tag') env styles1 tagBase styleBase)
        as (st' & env' & styles' & Hrun & Ht & Hs & Hl & items' & Hparts & Hsh & Hz);
        try eassumption.
      * unfold tagView. cbn. now rewrite <- Htag'.
      * unfold styleView. cbn. now rewrite <- Hs'.
      * exists st', env', styles'. repeat split; try assumption.
        exists items'. now repeat split.
Qed.

(** A token stream whose tags do not nest makes the interpreter throw one
    of its three errors. *)
Lemma interpretTokens_not_nested (tokens : list Token) :
  forall (opened : list ICommandToken) (st : Interp) (env : Env Host),
    openTags tokens opened = None ->
    tagView st = map Some opened ++ [None] ->
    length (styleStack st) = length opened ->
    exists e, interpretTokens tokens st env = Throw e /\ e <> UndefinedAccess.
Proof.
  induction tokens as [|token rest IH]; intros opened st env Hopen Htags Hlen.
  - discriminate.
  - destruct token as [content | | tok | name p];
      cbn [openTags] in Hopen; cbn [interpretTokens interpretToken].
    + destruct (pushCharacters content (currentStyle st)
                  (currentStyleHeight st) (renderParts st) env) as [parts env1].
      now apply (IH opened).
    + now apply (IH opened).
    + destruct (textCommands !! commandName tok) as [command|].
      * destruct (command (currentStyle st) (argument tok) (host env))
          as [style' host'].
        match goal with
        | |- context [measureHeight style' ?e] =>
            destruct (measureHeight style' e) as [h env2]
        end.
        apply (IH (tok :: opened)); [assumption | |].
        -- unfold tagView in *. cbn. now rewrite Htags.
        -- cbn. now rewrite Hlen.
      * eexists. split; [reflexivity | discriminate].
    + unfold tagView in Htags.
      destruct opened as [|tag opened1]; cbn in Htags;
        injection Htags as Hcur Hstack; rewrite Hcur.
      * eexists. split; [reflexivity | discriminate].
      * destruct (bool_decide (name = commandName tag)).
        -- destruct (styleStack st) as [|s' ss'] eqn:Hs'; [discriminate|].
           injection Hlen as Hlen.
           destruct (tagStack st) as [|tag' tags'] eqn:Htag'.
           { destruct opened1; discriminate. }
           apply (IH opened1); [assumption | | assumption].
           unfold tagView. cbn. exact Hstack.
        -- eexists. split; [reflexivity | discriminate].
Qed.

Lemma interpretTokens_app (pre rest : list Token) (st : Interp) (env : Env Host) :
  interpretTokens (pre ++ rest) st env =
  match interpretTokens pre st env with
  | Ok (st', env') => interpretTokens rest st' env'
  | Throw e => Throw e
  end.
Proof.
  revert st env. induction pre as [|token pre IH]; intros st env; cbn.
  - reflexivity.
  - destruct (interpretToken token st env) as [[st1 env1]|e]; [apply IH | reflexivity].
Qed.

(** [getRenderParts] on a stream whose tags nest, closed or not. *)
Lemma getRenderParts_nested (tokens : list Token) (baseStyle : ITextStyle)
    (env : Env Host) (opened : list ICommandToken) :
  openTags tokens [] = Some opened ->
  exists parts env',
    getRenderParts tokens baseStyle env = Ok (parts, env') /\
    map shape parts = flat_map tokenShapes tokens /\
    Forall unplaced parts.
Proof.
  intros Hopen. unfold getRenderParts.
  destruct (measureHeight baseStyle env) as [h env0].
  destruct (interpretTokens_nested tokens [] opened (initialInterp baseStyle h)
              env0 [] [None] [baseStyle] Hopen)
    as (st' & env' & styles' & Hrun & _ & _ & _ & items & Hparts & Hshape & Hzero);
    try reflexivity; try discriminate.
  rewrite Hrun. exists (renderParts st'), env'.
  cbn in Hparts. rewrite Hparts. now repeat split.
Qed.

(** The [pop()] calls of [getRenderParts] never meet an empty stack. *)
Lemma getRenderParts_never_undefined (tokens : list Token)
    (baseStyle : ITextStyle) (env : Env Host) :
  getRenderParts tokens baseStyle env <> Throw UndefinedAccess.
Proof.
  destruct (openTags tokens []) as [opened|] eqn:Hopen.
  - destruct (getRenderParts_nested tokens baseStyle env opened Hopen)
      as (parts & env' & Hrun & _). rewrite Hrun. discriminate.
  - unfold getRenderParts. destruct (measureHeight baseStyle env) as [h env0].
    destruct (interpretTokens_not_nested tokens [] (initialInterp baseStyle h)
                env0 Hopen) as (e & Hrun & Hne); try reflexivity.
    rewrite Hrun. congruence.
Qed.

Lemma flat_map_tokenShapes_no_newline (tokens : list Token) :
  Forall textWithoutNewline tokens ->
  flat_map tokenShapes tokens = flat_map tokenShapesNoNewline tokens.
Proof.
  induction 1 as [|token rest Htoken _ IH]; [reflexivity|].
  cbn. rewrite IH. f_equal.
  destruct token as [content | | |]; try reflexivity.
  cbn in *. f_equal. symmetry.
  induction Htoken as [|c content Hc _ IHc]; [reflexivity|].
  rewrite filter_cons_True by exact Hc. now rewrite IHc.
Qed.

(** C1: on a token stream in which every command is registered and every
    tag is closed, innermost first, before the end (text runs holding no
    newline character, which the tokenizer turns into newline tokens),
    [getRenderParts] returns a sequence with exactly one character item per
    non-newline character of the text runs and one newline item per newline
    token, in the order of the stream, every item with [x = 0] and
    [y = 0]. *)
Theorem getRenderParts_one_item_per_character
    (tokens : list Token) (baseStyle : ITextStyle) (env : Env Host) :
  openTags tokens [] = Some [] ->
  Forall textWithoutNewline tokens ->
  exists parts env',
    getRenderParts tokens baseStyle env = Ok (parts, env') /\
    map shape parts = flat_map tokenShapesNoNewline tokens /\
    Forall (fun item => x item = 0 /\ y item = 0) parts.
Proof.
  intros Hbalanced Htext.
  destruct (getRenderParts_nested tokens baseStyle env [] Hbalanced)
    as (parts & env' & Hrun & Hshape & Hzero).
  exists parts, env'. repeat split; try assumption.
  now rewrite Hshape, flat_map_tokenShapes_no_newline.
Qed.

(** C5 (amended): reaching the end of the token stream with command tags
    still open is not an error.  Whenever every command of the stream is
    registered and every close names the innermost open tag,
    [getRenderParts] returns the render items of the stream, whether the
    tags [opened] left open at the end are none or many. *)
Theorem getRenderParts_tolerates_open_tags
    (tokens : list Token) (baseStyle : ITextStyle) (env : Env Host)
    (opened : list ICommandToken) :
  openTags tokens [] = Some opened ->
  exists parts env',
    getRenderParts tokens baseStyle env = Ok (parts, env') /\
    map shape parts = flat_map tokenShapes tokens.
Proof.
  intros Hopen.
  destruct (getRenderParts_nested tokens baseStyle env opened Hopen)
    as (parts & env' & Hrun & Hshape & _).
  now exists parts, env'.
Qed.

(** C4: when interpretation reaches a command-close token (the tokens
    [pre] before it have been interpreted without error, leaving the tags
    [opened] open, innermost first), it throws: the unmatched-close error
    when no tag is open, and the mismatched-close error, at that token and
    against the innermost open tag, when the name closed differs from the
    name of that tag, whatever the tags [deeper] in the stack are called. *)
Theorem close_must_name_innermost_tag
    (pre rest : list Token) (name : string) (p : N)
    (baseStyle : ITextStyle) (env : Env Host) (r : list RenderItem * Env Host) :
  getRenderParts pre baseStyle env = Ok r ->
  exists opened,
    openTags pre [] = Some opened /\
    (opened = [] ->
     getRenderParts (pre ++ TCommandClose name p :: rest) baseStyle env
       = Throw (UnmatchedClose name p)) /\
    (forall tag deeper,
       opened = tag :: deeper ->
       name <> commandName tag ->
       getRenderParts (pre ++ TCommandClose name p :: rest) baseStyle env
         = Throw (MismatchedClose name p tag)).
Proof.
  intros Hreach. unfold getRenderParts in *.
  destruct (measureHeight baseStyle env) as [h env0].
  destruct (openTags pre []) as [opened|] eqn:Hopen.
  - exists opened. split; [reflexivity|].
    destruct (interpretTokens_nested pre [] opened (initialInterp baseStyle h)
                env0 [] [None] [baseStyle] Hopen)
      as (st' & env' & styles' & Hrun & Htags & _);
      try reflexivity; try discriminate.
    rewrite interpretTokens_app, Hrun.
    unfold tagView in Htags. split.
    + intros ->. cbn in Htags. injection Htags as Hcur _.
      cbn. now rewrite Hcur.
    + intros tag deeper -> Hname. cbn in Htags. injection Htags as Hcur _.
      cbn. rewrite Hcur.
      now rewrite bool_decide_eq_false_2.
  - destruct (interpretTokens_not_nested pre [] (initialInterp baseStyle h)
                env0 Hopen) as (e & Hrun & _); try reflexivity.
    rewrite Hrun in Hreach. discriminate.
Qed.

Lemma openTags_app (pre rest : list Token) (opened : list ICommandToken) :
  openTags (pre ++ rest) opened =
  match openTags pre opened with
  | Some opened' => openTags rest opened'
  | None => None
  end.
Proof.
  revert opened. induction pre as [|token pre IH]; intros opened; [reflexivity|].
  destruct token as [content | | tok | name p]; cbn; try apply IH.
  - destruct (textCommands !! commandName tok); [apply IH | reflexivity].
  - destruct opened as [|tag opened1]; [reflexivity|].
    destruct (bool_decide (name = commandName tag)); [apply IH | reflexivity].
Qed.

Lemma openTags_below (tokens : list Token)
    (opened opened' below : list ICommandToken) :
  openTags tokens opened = Some opened' ->
  openTags tokens (opened ++ below) = Some (opened' ++ below).
Proof.
  revert opened. induction tokens as [|token rest IH]; intros opened Hopen.
  - cbn in *. congruence.
  - destruct token as [content | | tok | name p]; cbn in *; try now apply IH.
    + destruct (textCommands !! commandName tok); [|discriminate].
      now apply (IH (tok :: opened)).
    + destruct opened as [|tag opened1]; [discriminate|]. cbn.
      destruct (bool_decide (name = commandName tag)); [|discriminate].
      now apply IH.
Qed.

(** C10: across a command, the tokens nested inside it (all their tags
    closed) and its close, the interpreter comes back to the very style
    object it held before the open, the two stacks and the current tag
    being as they were; so the character items of a text run after the
    close carry the style object those before the open carried. *)
Theorem close_restores_style_object
    (tok : ICommandToken) (inner : list Token) (p : N)
    (st : Interp) (env : Env Host) :
  is_Some (textCommands !! commandName tok) ->
  openTags inner [] = Some [] ->
  exists st' env',
    interpretTokens
      (TCommand tok :: inner ++ [TCommandClose (commandName tok) p]) st env
      = Ok (st', env') /\
    currentStyle st' = currentStyle st /\
    styleStack st' = styleStack st /\
    currentTag st' = currentTag st /\
    tagStack st' = tagStack st /\
    forall content, exists st'' env'' items,
      interpretToken (TText content) st' env' = Ok (st'', env'') /\
      renderParts st'' = renderParts st' ++ items /\
      Forall (fun item => exists c, type item = character_ c (currentStyle st))
        items.
Proof.
  intros [command Hcommand] Hinner.
  assert (openTags (TCommand tok :: inner ++ [TCommandClose (commandName tok) p]) []
          = Some []) as Hopen.
  { cbn [openTags]. rewrite Hcommand, openTags_app.
    pose proof (openTags_below inner [] [] [tok] Hinner) as Hbelow.
    cbn [app] in Hbelow. rewrite Hbelow. cbn.
    now rewrite bool_decide_eq_true_2. }
  destruct (interpretTokens_nested _ [] [] st env [] (tagView st) (styleView st)
              Hopen)
    as (st' & env' & styles' & Hrun & Htags & Hstyles & Hlen & _);
    try reflexivity; try discriminate.
  destruct styles' as [|? ?]; [|discriminate].
  unfold tagView, styleView in *. cbn in Htags, Hstyles.
  injection Htags as Hcur Hstack. injection Hstyles as Hcs Hss.
  exists st', env'. repeat split; try assumption.
  intros content. cbn [interpretToken].
  destruct (pushCharacters_spec content (currentStyle st')
              (currentStyleHeight st') (renderParts st') env')
    as (items & Heq & _ & _ & Hstyle).
  destruct (pushCharacters content (currentStyle st') (currentStyleHeight st')
              (renderParts st') env') as [parts env''].
  cbn in Heq. subst parts. rewrite Hcs in Hstyle.
  eexists _, env'', items. split; [reflexivity|]. split; [reflexivity|].
  exact Hstyle.
Qed.

(** ** Properties of [render] *)

Lemma switchStyle_spec (style : ITextStyle) (cur : option ITextStyle)
    (ctx : Canvas) :
  exists ops,
    switchStyle style cur ctx = (style, ctx ++ ops) /\ drawCalls ops = [].
Proof.
  assert (exists ops, applyTextStyleToCanvas style ctx = ctx ++ ops /\
                      drawCalls ops = []) as (ops & Happly & Hnone).
  { unfold applyTextStyleToCanvas. eexists. split; [reflexivity|].
    destruct (hasStroke style); reflexivity. }
  unfold switchStyle, sameObject. destruct cur as [cur|].
  - destruct (bool_decide (style = cur)) eqn:Hsame.
    + apply bool_decide_eq_true_1 in Hsame. subst cur.
      exists []. now rewrite app_nil_r.
    + exists ops. now rewrite Happly.
  - exists ops. now rewrite Happly.
Qed.

Lemma drawCalls_app (a b : Canvas) : drawCalls (a ++ b) = drawCalls a ++ drawCalls b.
Proof. apply List.filter_app. Qed.

Lemma strokePass_spec (parts : list RenderItem) :
  forall (cur : option ITextStyle) (ctx : Canvas),
  exists ops,
    snd (strokePass parts cur ctx) = ctx ++ ops /\
    drawCalls ops = strokeCalls parts.
Proof.
  induction parts as [|part rest IH]; intros cur ctx.
  - exists []. cbn. now rewrite app_nil_r.
  - cbn [strokePass strokeCalls flat_map]. destruct (type part) as [c style|].
    + destruct (switchStyle_spec style cur ctx) as (ops1 & -> & Hnone).
      destruct (hasStroke style).
      * destruct (IH (Some style) ((ctx ++ ops1) ++ [StrokeText c (x part) (y part)]))
          as (ops2 & -> & Hdraw).
        exists (ops1 ++ [StrokeText c (x part) (y part)] ++ ops2).
        split; [now rewrite <- !app_assoc|].
        rewrite !drawCalls_app, Hnone, Hdraw. reflexivity.
      * destruct (IH (Some style) (ctx ++ ops1)) as (ops2 & -> & Hdraw).
        exists (ops1 ++ ops2). split; [now rewrite <- app_assoc|].
        rewrite drawCalls_app, Hnone, Hdraw. reflexivity.
    + apply IH.
Qed.

Lemma fillPass_spec (parts : list RenderItem) :
  forall (cur : option ITextStyle) (ctx : Canvas),
  exists ops,
    snd (fillPass parts cur ctx) = ctx ++ ops /\
    drawCalls ops = fillCalls parts.
Proof.
  induction parts as [|part rest IH]; intros cur ctx.
  - exists []. cbn. now rewrite app_nil_r.
  - cbn [fillPass fillCalls flat_map]. destruct (type part) as [c style|].
    + destruct (switchStyle_spec style cur ctx) as (ops1 & -> & Hnone).
      destruct (IH (Some style) ((ctx ++ ops1) ++ [FillText c (x part) (y part)]))
        as (ops2 & -> & Hdraw).
      exists (ops1 ++ [FillText c (x part) (y part)] ++ ops2).
      split; [now rewrite <- !app_assoc|].
      rewrite !drawCalls_app, Hnone, Hdraw. reflexivity.
    + apply IH.
Qed.

Lemma strokeCalls_only_strokes (parts : list RenderItem) (op : CanvasOp) :
  In op (strokeCalls parts) -> exists c px py, op = StrokeText c px py.
Proof.
  unfold strokeCalls. rewrite in_flat_map. intros (part & _ & Hin).
  destruct (type part) as [c style|]; [|contradiction].
  destruct (hasStroke style); [|contradiction].
  destruct Hin as [<-|[]]. eauto.
Qed.

Lemma fillCalls_only_fills (parts : list RenderItem) (op : CanvasOp) :
  In op (fillCalls parts) -> exists c px py, op = FillText c px py.
Proof.
  unfold fillCalls. rewrite in_flat_map. intros (part & _ & Hin).
  destruct (type part) as [c style|]; [|contradiction].
  destruct Hin as [<-|[]]. eauto.
Qed.

Lemma lookup_drawCall (ops : Canvas) (i : nat) (op : CanvasOp) :
  ops !! i = Some op -> isDrawCall op = true -> In op (drawCalls ops).
Proof.
  intros Hlookup Hdraw. apply List.filter_In. split; [|exact Hdraw].
  apply list_elem_of_In, list_elem_of_lookup. eauto.
Qed.

(** C9: the operations [render] applies to the canvas fall in two runs.
    The draw calls of the first are the [strokeText] calls, one for each
    character item whose style has a stroke width above zero and a stroke
    colour that is not empty, in order; those of the second are the
    [fillText] calls, one for each character item, in order.  Newline items
    give no call in either run, and no [strokeText] comes after a
    [fillText]. *)
Theorem render_strokes_then_fills (parts : list RenderItem) (ctx : Canvas) :
  exists first second,
    render parts ctx = ctx ++ first ++ second /\
    drawCalls first = strokeCalls parts /\
    drawCalls second = fillCalls parts /\
    forall (i j : nat) c1 px1 py1 c2 px2 py2,
      (first ++ second) !! i = Some (FillText c1 px1 py1) ->
      (first ++ second) !! j = Some (StrokeText c2 px2 py2) ->
      (j < i)%nat.
Proof.
  unfold render.
  destruct (strokePass_spec parts None (ctx ++ [Save])) as (ops1 & Hs & Hd1).
  destruct (strokePass parts None (ctx ++ [Save])) as [cur ctx1].
  cbn in Hs. subst ctx1.
  destruct (fillPass_spec parts cur ((ctx ++ [Save]) ++ ops1)) as (ops2 & Hf & Hd2).
  destruct (fillPass parts cur ((ctx ++ [Save]) ++ ops1)) as [cur' ctx2].
  cbn in Hf. subst ctx2.
  assert (drawCalls ([Save] ++ ops1) = strokeCalls parts) as Hfirst
    by (rewrite drawCalls_app; exact Hd1).
  assert (drawCalls (ops2 ++ [Restore]) = fillCalls parts) as Hsecond
    by (rewrite drawCalls_app, Hd2; cbn; apply app_nil_r).
  exists ([Save] ++ ops1), (ops2 ++ [Restore]).
  split; [now rewrite <- !app_assoc|]. split; [exact Hfirst|].
  split; [exact Hsecond|].
  intros i j c1 px1 py1 c2 px2 py2 Hfill Hstroke.
  assert (length ([Save] ++ ops1) <= i)%nat as Hi.
  { destruct (Nat.le_gt_cases (length ([Save] ++ ops1)) i) as [|Hlt]; [assumption|].
    rewrite lookup_app_l in Hfill by exact Hlt.
    apply lookup_drawCall in Hfill; [|reflexivity].
    rewrite Hfirst in Hfill.
    apply strokeCalls_only_strokes in Hfill as (? & ? & ? & ?). discriminate. }
  assert (j < length ([Save] ++ ops1))%nat as Hj.
  { destruct (Nat.le_gt_cases (length ([Save] ++ ops1)) j) as [Hle|]; [|assumption].
    rewrite lookup_app_r in Hstroke by exact Hle.
    apply lookup_drawCall in Hstroke; [|reflexivity].
    rewrite Hsecond in Hstroke.
    apply fillCalls_only_fills in Hstroke as (? & ? & ? & ?). discriminate. }
  lia.
Qed.

(** ** Properties of [quote] *)

Lemma quoteLoop_skip_blank (pre : list RenderItem) :
  forall (done rest : list RenderItem) (budget : nat) (lastChar : Z)
         (quoted : bool) (env : Env Host),
    Forall (fun item => blank item = true) pre ->
    quoteLoop (length pre + budget) (length done) (done ++ pre ++ rest)
      lastChar quoted env
    = quoteLoop budget (length done + length pre) (done ++ pre ++ rest)
        lastChar quoted env.
Proof.
  induction pre as [|a pre IH]; intros done rest budget lastChar quoted env Hblank.
  - cbn. now rewrite Nat.add_0_r.
  - inversion Hblank as [|? ? Ha Hpre]; subst.
    cbn [length Nat.add app quoteLoop].
    rewrite list_lookup_middle by reflexivity.
    assert (quoteLoop (length pre + budget) (S (length done))
              (done ++ a :: pre ++ rest) lastChar quoted env
            = quoteLoop budget (length done + S (length pre))
                (done ++ a :: pre ++ rest) lastChar quoted env) as Hnext.
    { replace (S (length done)) with (length (done ++ [a]))
        by (rewrite length_app; cbn; lia).
      replace (done ++ a :: pre ++ rest) with ((done ++ [a]) ++ pre ++ rest)
        by (now rewrite <- app_assoc).
      rewrite IH by assumption. f_equal. rewrite length_app. cbn. lia. }
    unfold blank in Ha. destruct (type a) as [c style|].
    + rewrite Ha. exact Hnext.
    + exact Hnext.
Qed.

Lemma quoteLoop_quoted (todo : list RenderItem) :
  forall (done : list RenderItem) (budget : nat) (lastChar : Z) (env : Env Host),
    (length todo < budget)%nat ->
    quoteLoop budget (length done) (done ++ todo) lastChar true env
    = Some (done ++ todo, scanLast todo (length done) lastChar, true, env).
Proof.
  induction todo as [|a todo IH]; intros done budget lastChar env Hbudget.
  - destruct budget as [|budget]; [cbn in Hbudget; lia|].
    cbn [quoteLoop scanLast]. rewrite lookup_ge_None_2; [reflexivity|].
    rewrite app_nil_r. lia.
  - destruct budget as [|budget]; [cbn in Hbudget; lia|].
    cbn [length] in Hbudget. cbn [quoteLoop scanLast].
    rewrite list_lookup_middle by reflexivity.
    assert (forall lc,
              quoteLoop budget (S (length done)) (done ++ a :: todo) lc true env
              = Some (done ++ a :: todo, scanLast todo (S (length done)) lc,
                      true, env)) as Hnext.
    { intros lc.
      replace (S (length done)) with (length (done ++ [a]))
        by (rewrite length_app; cbn; lia).
      replace (done ++ a :: todo) with ((done ++ [a]) ++ todo)
        by (now rewrite <- app_assoc).
      apply IH. lia. }
    unfold blank. destruct (type a) as [c style|].
    + destruct (isWhitespace c); apply Hnext.
    + apply Hnext.
Qed.

Lemma scanLast_blank (items : list RenderItem) (i : nat) (lastChar : Z) :
  Forall (fun item => blank item = true) items ->
  scanLast items i lastChar = lastChar.
Proof.
  intros Hblank. revert i. induction Hblank as [|a items Ha _ IH]; intros i.
  - reflexivity.
  - cbn. rewrite Ha. apply IH.
Qed.

Lemma scanLast_app (a b : list RenderItem) (i : nat) (lastChar : Z) :
  scanLast (a ++ b) i lastChar
  = scanLast b (i + length a) (scanLast a i lastChar).
Proof.
  revert i lastChar. induction a as [|item a IH]; intros i lastChar; cbn.
  - now rewrite Nat.add_0_r.
  - rewrite IH. f_equal. lia.
Qed.

(** A sequence without visible characters goes through [quote] untouched. *)
Lemma quote_blank (parts : list RenderItem) (env : Env Host) :
  Forall (fun item => blank item = true) parts ->
  quote parts env = Some (parts, env).
Proof.
  intros Hblank. unfold quote.
  pose proof (quoteLoop_skip_blank parts [] [] 2 (-1)%Z false env Hblank) as Hskip.
  cbn [app length] in Hskip. rewrite app_nil_r in Hskip. rewrite Hskip.
  cbn [Nat.add quoteLoop]. rewrite lookup_ge_None_2 by lia. reflexivity.
Qed.

(** The two insertions of [quote] around the visible span [body]. *)
Lemma quote_visible (pre body0 post : list RenderItem)
    (first lastItem : RenderItem) (c1 c2 : character) (style1 style2 : ITextStyle)
    (tail : list RenderItem) (env : Env Host) :
  Forall (fun item => blank item = true) pre ->
  Forall (fun item => blank item = true) post ->
  first :: tail = body0 ++ [lastItem] ->
  type first = character_ c1 style1 -> isWhitespace c1 = false ->
  type lastItem = character_ c2 style2 -> isWhitespace c2 = false ->
  let '(w1, env1) := measureWidth style1 quoteChar env in
  let '(w2, env2) := measureWidth style2 quoteChar env1 in
  quote (pre ++ (first :: tail) ++ post) env
  = Some (pre ++ quoteItem style1 (height first) w1 :: (first :: tail) ++
          quoteItem style2 (height lastItem) w2 :: post, env2).
Proof.
  intros Hpre Hpost Hbody Hfirst Hc1 Hlast Hc2.
  destruct (measureWidth style1 quoteChar env) as [w1 env1] eqn:Hw1.
  destruct (measureWidth style2 quoteChar env1) as [w2 env2] eqn:Hw2.
  set (q1 := quoteItem style1 (height first) w1).
  unfold quote.
  replace (length (pre ++ (first :: tail) ++ post) + 2)%nat
    with (length pre + S (S (length tail + length post + 1)))%nat
    by (rewrite !length_app; cbn; lia).
  pose proof (quoteLoop_skip_blank pre [] ((first :: tail) ++ post)
                (S (S (length tail + length post + 1))) (-1)%Z false env Hpre)
    as Hskip.
  cbn [app length Nat.add] in Hskip. cbn [app]. rewrite Hskip. clear Hskip.
  set (budget := S (length tail + length post + 1)).
  cbn [quoteLoop].
  change (pre ++ first :: tail ++ post) with (pre ++ first :: (tail ++ post)).
  rewrite list_lookup_middle by reflexivity.
  rewrite Hfirst, Hc1, Hw1.
  assert (splice (length pre) q1 (pre ++ first :: tail ++ post)
          = (pre ++ [q1]) ++ (first :: tail) ++ post) as Hsplice.
  { unfold splice. rewrite take_app_length, drop_app_length.
    now rewrite <- app_assoc. }
  fold q1. rewrite Hsplice.
  replace (S (length pre)) with (length (pre ++ [q1]))
    by (rewrite length_app; cbn; lia).
  rewrite quoteLoop_quoted by (subst budget; rewrite length_app; cbn; lia).
  rewrite Hbody, scanLast_app, (scanLast_blank post) by assumption.
  rewrite scanLast_app. cbn [scanLast].
  assert (blank lastItem = false) as -> by (unfold blank; now rewrite Hlast).
  assert ((0 <=? Z.of_nat (length (pre ++ [q1]) + length body0))%Z = true) as ->
    by (apply Z.leb_le; lia).
  cbn [andb]. rewrite Nat2Z.id.
  replace ((pre ++ [q1]) ++ (body0 ++ [lastItem]) ++ post)
    with (((pre ++ [q1]) ++ body0) ++ lastItem :: post)
    by (now rewrite <- !app_assoc).
  rewrite list_lookup_middle by (rewrite !length_app; cbn; lia).
  rewrite Hlast, Hw2. f_equal. f_equal.
  unfold splice.
  replace (length (pre ++ [q1]) + length body0 + 1)%nat
    with (length (((pre ++ [q1]) ++ body0) ++ [lastItem]))
    by (rewrite !length_app; cbn; lia).
  replace (((pre ++ [q1]) ++ body0) ++ lastItem :: post)
    with ((((pre ++ [q1]) ++ body0) ++ [lastItem]) ++ post)
    by (now rewrite <- !app_assoc).
  rewrite take_app_length, drop_app_length.
  rewrite <- !app_assoc. cbn [app]. do 2 f_equal.
  rewrite app_comm_cons, Hbody, <- app_assoc. reflexivity.
Qed.

Lemma blank_false_character (item : RenderItem) :
  blank item = false ->
  exists c style, type item = character_ c style /\ isWhitespace c = false.
Proof.
  unfold blank. destruct (type item) as [c style|]; [eauto | discriminate].
Qed.

(** Either nothing of a sequence is visible, or it has a visible span
    between a blank prefix and a blank suffix. *)
Lemma visible_span (parts : list RenderItem) :
  Forall (fun item => blank item = true) parts \/
  exists pre body0 post first tail lastItem,
    parts = pre ++ (first :: tail) ++ post /\
    first :: tail = body0 ++ [lastItem] /\
    Forall (fun item => blank item = true) pre /\
    Forall (fun item => blank item = true) post /\
    blank first = false /\ blank lastItem = false.
Proof.
  induction parts as [|a parts IH]; [left; constructor|].
  destruct (blank a) eqn:Ha.
  - destruct IH as [Hall | (pre & body0 & post & first & tail & lastItem
                            & -> & Hbody & Hpre & Hpost & Hf & Hl)].
    + left. now constructor.
    + right. exists (a :: pre), body0, post, first, tail, lastItem.
      repeat split; try assumption. now constructor.
  - right.
    destruct IH as [Hall | (pre & body0 & post & first & tail & lastItem
                            & -> & Hbody & Hpre & Hpost & Hf & Hl)].
    + exists [], [], parts, a, [], a. repeat split; try assumption. constructor.
    + exists [], (a :: pre ++ body0), post, a, (pre ++ first :: tail), lastItem.
      repeat split; try assumption; try constructor.
      * cbn. now rewrite <- app_assoc.
      * cbn. now rewrite Hbody, <- app_assoc.
Qed.

(** [quote] always completes. *)
Lemma quote_total (parts : list RenderItem) (env : Env Host) :
  exists r, quote parts env = Some r.
Proof.
  destruct (visible_span parts)
    as [Hall | (pre & body0 & post & first & tail & lastItem
                & -> & Hbody & Hpre & Hpost & Hf & Hl)].
  - eexists. now apply quote_blank.
  - apply blank_false_character in Hf as (c1 & style1 & Hfirst & Hc1).
    apply blank_false_character in Hl as (c2 & style2 & Hlast & Hc2).
    pose proof (quote_visible pre body0 post first lastItem c1 c2 style1 style2
                  tail env Hpre Hpost Hbody Hfirst Hc1 Hlast Hc2) as Hquote.
    destruct (measureWidth style1 quoteChar env) as [w1 env1].
    destruct (measureWidth style2 quoteChar env1) as [w2 env2].
    eexists. exact Hquote.
Qed.

(** C6: [quote] leaves a sequence without a non-whitespace character item
    as it is.  A sequence with such an item is a blank prefix, the span
    [body] from the first to the last of these items, and a blank suffix;
    [quote] makes it longer by exactly 2, inserting one item just before
    [body] and one just after it, each a quotation mark at [x = 0],
    [y = 0] with the style and the height of the character next to it and
    the width measured for that style. *)
Theorem quote_brackets_visible_span
    (parts : list RenderItem) (env : Env Host) :
  (Forall (fun item => blank item = true) parts ->
   quote parts env = Some (parts, env)) /\
  (Exists (fun item => blank item = false) parts ->
   exists pre body post first lastItem c1 style1 c2 style2 w1 env1 w2 env2,
     parts = pre ++ body ++ post /\
     Forall (fun item => blank item = true) pre /\
     Forall (fun item => blank item = true) post /\
     head body = Some first /\ last body = Some lastItem /\
     type first = character_ c1 style1 /\ isWhitespace c1 = false /\
     type lastItem = character_ c2 style2 /\ isWhitespace c2 = false /\
     measureWidth style1 quoteChar env = (w1, env1) /\
     measureWidth style2 quoteChar env1 = (w2, env2) /\
     quote parts env
     = Some (pre ++
             {| type := character_ quoteChar style1; x := 0; y := 0;
                height := height first; width := w1 |} :: body ++
             {| type := character_ quoteChar style2; x := 0; y := 0;
                height := height lastItem; width := w2 |} :: post, env2) /\
     forall parts' env',
       quote parts env = Some (parts', env') ->
       length parts' = (length parts + 2)%nat).
Proof.
  split; [apply quote_blank|].
  intros Hvisible.
  destruct (visible_span parts)
    as [Hall | (pre & body0 & post & first & tail & lastItem
                & -> & Hbody & Hpre & Hpost & Hf & Hl)].
  { apply Exists_exists in Hvisible as (item & Hin & Hitem).
    rewrite Forall_forall in Hall. rewrite (Hall item Hin) in Hitem.
    discriminate. }
  apply blank_false_character in Hf as (c1 & style1 & Hfirst & Hc1).
  apply blank_false_character in Hl as (c2 & style2 & Htl & Hc2).
  pose proof (quote_visible pre body0 post first lastItem c1 c2 style1 style2
                tail env Hpre Hpost Hbody Hfirst Hc1 Htl Hc2) as Hquote.
  destruct (measureWidth style1 quoteChar env) as [w1 env1] eqn:Hw1.
  destruct (measureWidth style2 quoteChar env1) as [w2 env2] eqn:Hw2.
  exists pre, (first :: tail), post, first, lastItem,
         c1, style1, c2, style2, w1, env1, w2, env2.
  split; [reflexivity|]. split; [exact Hpre|]. split; [exact Hpost|].
  split; [reflexivity|].
  split; [rewrite Hbody; apply last_snoc|].
  split; [exact Hfirst|]. split; [exact Hc1|].
  split; [exact Htl|]. split; [exact Hc2|].
  split; [exact Hw1|]. split; [exact Hw2|]. split; [exact Hquote|].
  intros parts' env' Hrun. rewrite Hquote in Hrun. injection Hrun as <- _.
  rewrite !length_app. cbn. rewrite !length_app. cbn. lia.
Qed.

(** ** Properties of the alignment pass *)

Lemma or_zero_eq (v : Q) : or_zero v == v.
Proof.
  unfold or_zero. destruct (Qeq_bool v 0) eqn:Hzero; [|reflexivity].
  apply Qeq_bool_iff in Hzero. now symmetry.
Qed.

Lemma placeItems_length (line : list RenderItem) (x0 : Q) :
  length (placeItems x0 line) = length line.
Proof.
  revert x0. induction line as [|item line IH]; intros x0; cbn; [reflexivity|].
  now rewrite IH.
Qed.

Lemma placeItems_map_y (line : list RenderItem) (x0 : Q) :
  map y (placeItems x0 line) = map y line.
Proof.
  revert x0. induction line as [|item line IH]; intros x0; cbn; [reflexivity|].
  now rewrite IH.
Qed.

Lemma placeItems_map_width (line : list RenderItem) (x0 : Q) :
  map width (placeItems x0 line) = map width line.
Proof.
  revert x0. induction line as [|item line IH]; intros x0; cbn; [reflexivity|].
  now rewrite IH.
Qed.

(** The cursor of [fixLine] at an item is the start plus the widths of the
    items before it. *)
Lemma placeItems_lookup_x (line : list RenderItem) :
  forall (x0 : Q) (i : nat) (item : RenderItem),
    placeItems x0 line !! i = Some item ->
    x item == x0 + sumQ (map width (take i line)).
Proof.
  induction line as [|item0 line IH]; intros x0 i item Hlookup; [discriminate|].
  destruct i as [|i]; cbn in Hlookup.
  - injection Hlookup as <-. rewrite take_0. unfold sumQ.
    cbn [map fold_right set_x x]. lra.
  - apply IH in Hlookup. rewrite Hlookup.
    rewrite firstn_cons. unfold sumQ. cbn [map fold_right]. lra.
Qed.

Lemma alignLoop_map_y (alignment : Alignment) (xStart xEnd : Q)
    (lineHeights : list Q) (parts : list RenderItem) :
  forall (y0 : Q) (line : nat) (lineWidth lineHeight : Q)
         (currentLine : list RenderItem),
    map y (alignLoop alignment xStart xEnd lineHeights parts y0 line lineWidth
             lineHeight currentLine)
    = map y currentLine ++ ysFrom lineHeights parts y0 line.
Proof.
  induction parts as [|item rest IH];
    intros y0 line lineWidth lineHeight currentLine.
  - cbn. unfold fixLine. now rewrite placeItems_map_y, app_nil_r.
  - cbn [alignLoop ysFrom]. unfold isNewline. cbn [set_y type].
    destruct (type item) as [c style|].
    + rewrite IH, map_app, <- app_assoc. reflexivity.
    + rewrite map_app. unfold fixLine.
      rewrite placeItems_map_y, IH, map_app, <- app_assoc. reflexivity.
Qed.

Lemma alignLoop_map_width (alignment : Alignment) (xStart xEnd : Q)
    (lineHeights : list Q) (parts : list RenderItem) :
  forall (y0 : Q) (line : nat) (lineWidth lineHeight : Q)
         (currentLine : list RenderItem),
    map width (alignLoop alignment xStart xEnd lineHeights parts y0 line
                 lineWidth lineHeight currentLine)
    = map width currentLine ++ map width (map addSpacing parts).
Proof.
  induction parts as [|item rest IH];
    intros y0 line lineWidth lineHeight currentLine.
  - cbn. unfold fixLine. now rewrite placeItems_map_width, app_nil_r.
  - cbn [alignLoop map]. unfold addSpacing at 1. cbn [set_y type width].
    destruct (type item) as [c style|].
    + rewrite IH, map_app, <- app_assoc. reflexivity.
    + rewrite map_app. unfold fixLine.
      rewrite placeItems_map_width, IH, map_app, <- app_assoc. reflexivity.
Qed.

Lemma ysFrom_lookup (lineHeights : list Q) (parts : list RenderItem) :
  forall (y0 : Q) (line i : nat) (v : Q),
    ysFrom lineHeights parts y0 line !! i = Some v ->
    v = yAfterLines lineHeights line (lineOf parts i) y0.
Proof.
  induction parts as [|item rest IH]; intros y0 line i v Hlookup; [discriminate|].
  destruct i as [|i]; cbn in Hlookup.
  - now injection Hlookup as <-.
  - unfold lineOf. cbn [take List.filter].
    destruct (isNewline item); apply IH in Hlookup; exact Hlookup.
Qed.

Lemma yAfterLines_sum (lineHeights : list Q) (n : nat) :
  forall (line : nat) (y0 : Q),
    yAfterLines lineHeights line n y0
    == y0 + sumQ (take n (drop (S line) lineHeights)).
Proof.
  induction n as [|n IH]; intros line y0.
  - cbn [yAfterLines]. rewrite take_0. unfold sumQ. cbn [fold_right]. lra.
  - cbn [yAfterLines]. rewrite IH, or_zero_eq.
    destruct (lineHeights !! S line) as [h|] eqn:Hh.
    + rewrite (drop_S _ _ _ Hh). rewrite firstn_cons. unfold sumQ. cbn [fold_right].
      rewrite (nth_lookup_Some _ _ 0 _ Hh). lra.
    + rewrite nth_lookup, Hh. cbn [default].
      apply lookup_ge_None_1 in Hh.
      rewrite !drop_ge by lia. rewrite !take_nil.
      unfold sumQ. cbn [fold_right]. lra.
Qed.

Lemma collectLineHeights_length (parts : list RenderItem) (lineHeight : Q) :
  length (fst (collectLineHeights parts lineHeight))
  = S (length (List.filter isNewline parts)).
Proof.
  revert lineHeight. induction parts as [|item rest IH]; intros lineHeight;
    [reflexivity|].
  cbn [collectLineHeights List.filter]. destruct (isNewline item).
  - specialize (IH (Qmax lineHeight (height item))).
    destruct (collectLineHeights rest (Qmax lineHeight (height item))).
    cbn in *. now rewrite IH.
  - apply IH.
Qed.

Lemma lineOf_bound (parts : list RenderItem) (i : nat) :
  (lineOf parts i <= length (List.filter isNewline parts))%nat.
Proof.
  unfold lineOf. rewrite <- (take_drop i parts) at 2.
  rewrite List.filter_app, length_app. lia.
Qed.

(** Every character item leaves [fixAlignment] with its own letter spacing
    added to its width, the last item of a line included. *)
Lemma fixAlignment_widths (alignment : Alignment) (xStart xEnd yStart : Q)
    (parts : list RenderItem) :
  map width (fixAlignment alignment xStart xEnd yStart parts)
  = map width (map addSpacing parts).
Proof.
  unfold fixAlignment.
  destruct (collectLineHeights parts 0) as [lineHeights lineHeight].
  now rewrite alignLoop_map_width.
Qed.

(** C2 (the code on the failing input): on a right-aligned line of two
    characters ten wide with letter spacings 2 and 5, [fixAlignment] adds
    to each character its own letter spacing, that of the last character
    of the line too: the widths end as 12 and 15, the line is 27 wide and
    starts at 73. *)
Theorem fixAlignment_spacing_of_last_character :
  map (fun item => (x item, width item))
    (fixAlignment alignRight 0 100 0 sampleSpacedLine)
  = [ (73, 12); (85, 15) ].
Proof. vm_compute. reflexivity. Qed.

Lemma placeItems_map_height (line : list RenderItem) (x0 : Q) :
  map height (placeItems x0 line) = map height line.
Proof.
  revert x0. induction line as [|item line IH]; intros x0; cbn; [reflexivity|].
  now rewrite IH.
Qed.

Lemma alignLoop_map_height (alignment : Alignment) (xStart xEnd : Q)
    (lineHeights : list Q) (parts : list RenderItem) :
  forall (y0 : Q) (line : nat) (lineWidth lineHeight : Q)
         (currentLine : list RenderItem),
    map height (alignLoop alignment xStart xEnd lineHeights parts y0 line
                  lineWidth lineHeight currentLine)
    = map height currentLine ++ map height parts.
Proof.
  induction parts as [|item rest IH];
    intros y0 line lineWidth lineHeight currentLine.
  - cbn. unfold fixLine. now rewrite placeItems_map_height, app_nil_r.
  - cbn [alignLoop map]. cbn [set_y type].
    destruct (type item) as [c style|].
    + rewrite IH, map_app, <- app_assoc. reflexivity.
    + rewrite map_app. unfold fixLine.
      rewrite placeItems_map_height, IH, map_app, <- app_assoc. reflexivity.
Qed.

(** The first height recorded from a point on is at least the running
    maximum at that point. *)
Lemma collectLineHeights_first_ge (parts : list RenderItem) :
  forall lineHeight,
    lineHeight <= nth 0 (fst (collectLineHeights parts lineHeight)) 0.
Proof.
  induction parts as [|item rest IH]; intros lineHeight.
  - cbn. apply Qle_refl.
  - cbn [collectLineHeights]. destruct (isNewline item).
    + destruct (collectLineHeights rest (Qmax lineHeight (height item))).
      cbn. apply Q.le_max_l.
    + eapply Qle_trans; [apply Q.le_max_l | apply IH].
Qed.

(** The height recorded for a line is at least the height of each of its
    items, its closing newline included. *)
Lemma collectLineHeights_bound (parts : list RenderItem) :
  forall (lineHeight : Q) (i : nat) (item : RenderItem),
    parts !! i = Some item ->
    height item
    <= nth (lineOf parts i) (fst (collectLineHeights parts lineHeight)) 0.
Proof.
  induction parts as [|item0 rest IH]; intros lineHeight i item Hlookup;
    [discriminate|].
  destruct i as [|i]; cbn in Hlookup.
  - injection Hlookup as <-. unfold lineOf. rewrite take_0.
    cbn [List.filter length collectLineHeights]. destruct (isNewline item0).
    + destruct (collectLineHeights rest (Qmax lineHeight (height item0))).
      cbn. apply Q.le_max_r.
    + eapply Qle_trans; [apply Q.le_max_r | apply collectLineHeights_first_ge].
  - unfold lineOf. rewrite firstn_cons.
    cbn [List.filter collectLineHeights]. destruct (isNewline item0).
    + specialize (IH (Qmax lineHeight (height item0)) i item Hlookup).
      destruct (collectLineHeights rest (Qmax lineHeight (height item0))).
      cbn [length fst nth]. exact IH.
    + apply IH. exact Hlookup.
Qed.

(** C3 (amended): after [fixAlignment], an item on line [k] has [y] equal
    to [yStart] plus the heights the first pass recorded for the lines 1
    to [k]: at each newline item the cursor advances by the height recorded
    for the line it enters, and the height recorded for the first line is
    never added.  The first pass records one height per newline item and
    one for the trailing line, so each of these entries exists, also for a
    line that is a lone newline; and the height recorded for a line is at
    least the height of each item of that line, its closing newline
    included. *)
Theorem fixAlignment_y_by_recorded_heights
    (alignment : Alignment) (xStart xEnd yStart : Q)
    (parts : list RenderItem) (i : nat) (item : RenderItem) :
  fixAlignment alignment xStart xEnd yStart parts !! i = Some item ->
  (lineOf parts i < length (fst (collectLineHeights parts 0)))%nat /\
  height item <= nth (lineOf parts i) (fst (collectLineHeights parts 0)) 0 /\
  y item == yStart +
            sumQ (take (lineOf parts i)
                    (drop 1 (fst (collectLineHeights parts 0)))).
Proof.
  intros Hlookup. split; [|split].
  - rewrite collectLineHeights_length.
    pose proof (lineOf_bound parts i). lia.
  - unfold fixAlignment in Hlookup.
    destruct (collectLineHeights parts 0) as [lineHeights lineHeight] eqn:Hfirst.
    assert (map height (alignLoop alignment xStart xEnd lineHeights parts yStart
                          0 0 lineHeight []) !! i = Some (height item)) as Hh.
    { change (map height ?l) with (height <$> l).
      now rewrite list_lookup_fmap, Hlookup. }
    rewrite alignLoop_map_height in Hh. cbn [map app] in Hh.
    change (map height parts) with (height <$> parts) in Hh.
    rewrite list_lookup_fmap in Hh.
    destruct (parts !! i) as [item0|] eqn:Hitem0; [|discriminate].
    cbn in Hh. injection Hh as <-.
    pose proof (collectLineHeights_bound parts 0 i item0 Hitem0) as Hbound.
    now rewrite Hfirst in Hbound.
  - unfold fixAlignment in Hlookup.
    destruct (collectLineHeights parts 0) as [lineHeights lineHeight].
    assert (map y (alignLoop alignment xStart xEnd lineHeights parts yStart 0 0
                     lineHeight []) !! i = Some (y item)) as Hy.
    { change (map y ?l) with (y <$> l). now rewrite list_lookup_fmap, Hlookup. }
    rewrite alignLoop_map_y in Hy. cbn [map app] in Hy.
    apply ysFrom_lookup in Hy. rewrite Hy. cbn [fst].
    apply yAfterLines_sum.
Qed.

(** A line made of character items only is fixed as a whole at the end. *)
Lemma alignLoop_single_line (alignment : Alignment) (xStart xEnd : Q)
    (lineHeights : list Q) (parts : list RenderItem) (y0 : Q) (line : nat) :
  Forall (fun item => isNewline item = false) parts ->
  forall (lineWidth lineHeight : Q) (currentLine : list RenderItem),
    exists lineHeight',
      alignLoop alignment xStart xEnd lineHeights parts y0 line lineWidth
        lineHeight currentLine
      = alignLoop alignment xStart xEnd lineHeights [] y0 line
          (lineWidthAfter lineWidth parts) lineHeight'
          (currentLine ++ map (fun item => addSpacing (set_y y0 item)) parts).
Proof.
  induction 1 as [|item rest Hitem _ IH]; intros lineWidth lineHeight currentLine.
  - exists lineHeight. cbn. now rewrite app_nil_r.
  - cbn [alignLoop map lineWidthAfter fold_left].
    unfold addSpacing at 1. unfold isNewline in Hitem. cbn [set_y type width].
    destruct (type item) as [c style|]; [|discriminate].
    destruct (IH (lineWidth + width item + letterSpacing style)
                (Qmax lineHeight (height item))
                (currentLine ++
                   [set_width (width item + letterSpacing style) (set_y y0 item)]))
      as (lineHeight' & ->).
    exists lineHeight'. now rewrite <- app_assoc.
Qed.

Lemma lineWidthAfter_no_spacing (parts : list RenderItem) :
  Forall (fun item => exists c style,
            type item = character_ c style /\ letterSpacing style == 0) parts ->
  forall lineWidth,
    lineWidthAfter lineWidth parts == lineWidth + sumQ (map width parts).
Proof.
  induction 1 as [|item rest (c & style & Htype & Hzero) _ IH]; intros lineWidth.
  - unfold sumQ. cbn. lra.
  - cbn [lineWidthAfter fold_left]. fold (lineWidthAfter
      (lineWidth + width item +
         match type item with
         | character_ _ style => letterSpacing style
         | newline_ => 0
         end) rest).
    rewrite IH, Htype. unfold sumQ. cbn [map fold_right]. lra.
Qed.

Lemma widths_no_spacing (parts : list RenderItem) (y0 : Q) :
  Forall (fun item => exists c style,
            type item = character_ c style /\ letterSpacing style == 0) parts ->
  forall i,
    sumQ (map width (take i (map (fun item => addSpacing (set_y y0 item)) parts)))
    == sumQ (map width (take i parts)).
Proof.
  induction 1 as [|item rest (c & style & Htype & Hzero) _ IH]; intros i.
  - cbn [map]. rewrite !take_nil. reflexivity.
  - destruct i as [|i]; [rewrite !take_0; reflexivity|].
    cbn [map]. rewrite !firstn_cons. unfold sumQ. cbn [map fold_right].
    fold (sumQ (map width (take i
            (map (fun item => addSpacing (set_y y0 item)) rest)))).
    fold (sumQ (map width (take i rest))).
    rewrite IH. unfold addSpacing. cbn [set_y type]. rewrite Htype.
    cbn [set_width set_y width]. rewrite Hzero. lra.
Qed.

Lemma lineStart_proper (alignment : Alignment) (xStart xEnd w w' : Q) :
  w == w' ->
  lineStart alignment xStart xEnd w == lineStart alignment xStart xEnd w'.
Proof.
  intros Hw. destruct alignment; cbn [lineStart]; rewrite ?Hw; reflexivity.
Qed.

(** C7: on a single line of character items without letter spacing,
    [fixAlignment] gives the item of index [i] the start of the line plus
    the widths of the items before it; the start is [xStart] for [left],
    [xStart + (xEnd - xStart) / 2 - lineWidth / 2] for [center] and
    [xEnd - lineWidth] for [right], [lineWidth] being the sum of the
    widths. *)
Theorem fixAlignment_single_line_x
    (alignment : Alignment) (xStart xEnd yStart : Q)
    (parts : list RenderItem) (i : nat) (item : RenderItem) :
  Forall (fun item => exists c style,
            type item = character_ c style /\ letterSpacing style == 0) parts ->
  fixAlignment alignment xStart xEnd yStart parts !! i = Some item ->
  x item ==
    match alignment with
    | alignLeft => xStart
    | alignCenter => xStart + (xEnd - xStart) / 2 - sumQ (map width parts) / 2
    | alignRight => xEnd - sumQ (map width parts)
    end + sumQ (map width (take i parts)).
Proof.
  intros Hline Hlookup. unfold fixAlignment in Hlookup.
  destruct (collectLineHeights parts 0) as [lineHeights lineHeight].
  destruct (alignLoop_single_line alignment xStart xEnd lineHeights parts
              yStart 0) with (lineWidth := 0) (lineHeight := lineHeight)
              (currentLine := @nil RenderItem) as (lineHeight' & Hloop).
  { eapply Forall_impl; [exact Hline|].
    intros it (c & style & Htype & _). unfold isNewline. now rewrite Htype. }
  rewrite Hloop in Hlookup. cbn [alignLoop app] in Hlookup.
  apply placeItems_lookup_x in Hlookup. rewrite Hlookup.
  rewrite widths_no_spacing by exact Hline.
  rewrite (lineStart_proper alignment xStart xEnd _ (sumQ (map width parts))).
  - destruct alignment; reflexivity.
  - rewrite lineWidthAfter_no_spacing by exact Hline. lra.
Qed.

(** ** Further properties of the metrics helpers *)

Lemma measureWidth_again (style : ITextStyle) (c1 c2 : character)
    (env : Env Host) :
  measureWidth style c2 (snd (measureWidth style c1 env))
  = (measureText (tmpContext (snd (measureWidth style c1 env))) c2,
     snd (measureWidth style c1 env)).
Proof.
  unfold measureWidth.
  assert (sameObject style style = true) as Hsame
    by (unfold sameObject; now apply bool_decide_eq_true_2).
  destruct (lastStyle env) as [l|] eqn:Hlast; cbn [snd].
  - destruct (sameObject style l) eqn:Hl; cbn [lastStyle].
    + now rewrite Hlast, Hl.
    + now rewrite Hsame.
  - cbn [lastStyle]. now rewrite Hsame.
Qed.

(** X1: two measurements in a row for the same style object configure the
    measuring canvas at most once: after [measureWidth] for a style, that
    style is the one remembered, the height cache and the layout log are
    as before, and a second [measureWidth] for the same style object
    returns the width on the canvas as it stands and changes nothing. *)
Theorem measureWidth_same_style_no_reconfigure
    (style : ITextStyle) (c1 c2 : character) (env : Env Host) :
  let env1 := snd (measureWidth style c1 env) in
  lastStyle env1 = Some style /\
  heightCache env1 = heightCache env /\
  layoutLog env1 = layoutLog env /\
  measureWidth style c2 env1 = (measureText (tmpContext env1) c2, env1).
Proof.
  cbn zeta. split; [|split; [|split]].
  - unfold measureWidth. cbn [snd].
    destruct (lastStyle env) as [l|] eqn:Hlast;
      [destruct (sameObject style l) eqn:Hl|]; cbn [lastStyle];
      try reflexivity.
    rewrite Hlast. unfold sameObject in Hl.
    apply bool_decide_eq_true_1 in Hl. now subst l.
  - unfold measureWidth. cbn [snd].
    destruct (lastStyle env) as [l|]; [destruct (sameObject style l)|];
      reflexivity.
  - unfold measureWidth. cbn [snd].
    destruct (lastStyle env) as [l|]; [destruct (sameObject style l)|];
      reflexivity.
  - apply measureWidth_again.
Qed.

(** X2: a text run is measured under one configuration of the canvas.
    However many characters the run has, the module state after it is the
    state after measuring its first character, and each item gets the width
    its character has on the canvas in that state. *)
Theorem pushCharacters_one_configuration
    (c : character) (rest : list character) (style : ITextStyle) (h : Q)
    (parts : list RenderItem) (env : Env Host) :
  let env1 := snd (measureWidth style c env) in
  pushCharacters (c :: rest) style h parts env
  = (parts ++
     map (fun ch => {| type := character_ ch style; x := 0; y := 0;
                       height := h;
                       width := measureText (tmpContext env1) ch |})
       (c :: rest),
     env1).
Proof.
  cbn zeta. cbn [pushCharacters map].
  destruct (measureWidth style c env) as [w env1] eqn:Hfirst.
  assert (w = measureText (tmpContext env1) c /\
          env1 = snd (measureWidth style c env)) as [-> Henv1].
  { rewrite Hfirst. split; [|reflexivity].
    unfold measureWidth in Hfirst. now injection Hfirst as <- <-. }
  cbn [snd].
  assert (forall content parts0,
            pushCharacters content style h parts0 env1
            = (parts0 ++
               map (fun ch => {| type := character_ ch style; x := 0; y := 0;
                                 height := h;
                                 width := measureText (tmpContext env1) ch |})
                 content, env1)) as Hrest.
  { induction content as [|ch content IH]; intros parts0.
    - cbn. now rewrite app_nil_r.
    - cbn [pushCharacters map]. rewrite Henv1 at 1.
      rewrite measureWidth_again, <- Henv1. rewrite IH, <- app_assoc.
      reflexivity. }
  rewrite Hrest, <- app_assoc. reflexivity.
Qed.

Lemma cacheGrows_refl (env : Env Host) : cacheGrows env env.
Proof. split; [reflexivity | lia]. Qed.

Lemma cacheGrows_trans (env1 env2 env3 : Env Host) :
  cacheGrows env1 env2 -> cacheGrows env2 env3 -> cacheGrows env1 env3.
Proof.
  intros [Hsub1 Hsize1] [Hsub2 Hsize2]. split; [|lia].
  etransitivity; eassumption.
Qed.

Lemma measureHeight_cacheGrows (style : ITextStyle) (env : Env Host) :
  cacheGrows env (snd (measureHeight style env)).
Proof.
  unfold measureHeight.
  destruct (heightCache env !! fontKey style) as [base|] eqn:Hlookup;
    cbn [snd]; [apply cacheGrows_refl|].
  split; cbn [heightCache layoutLog].
  - now apply insert_subseteq.
  - rewrite map_size_insert_None by assumption.
    rewrite length_app. cbn. lia.
Qed.

Lemma measureWidth_cacheGrows (style : ITextStyle) (c : character)
    (env : Env Host) :
  cacheGrows env (snd (measureWidth style c env)).
Proof.
  unfold measureWidth. cbn [snd].
  destruct (lastStyle env) as [l|]; [destruct (sameObject style l)|];
    (split; cbn [heightCache layoutLog]; [reflexivity | lia]).
Qed.

Lemma pushCharacters_cacheGrows (content : list character)
    (style : ITextStyle) (h : Q) (parts : list RenderItem) (env : Env Host) :
  cacheGrows env (snd (pushCharacters content style h parts env)).
Proof.
  revert parts env. induction content as [|c content IH]; intros parts env.
  - apply cacheGrows_refl.
  - cbn [pushCharacters].
    pose proof (measureWidth_cacheGrows style c env) as Hstep.
    destruct (measureWidth style c env) as [w env1]. cbn [snd] in Hstep.
    eapply cacheGrows_trans; [exact Hstep | apply IH].
Qed.

Lemma interpretTokens_cacheGrows (tokens : list Token) :
  forall (st st' : Interp) (env env' : Env Host),
    interpretTokens tokens st env = Ok (st', env') -> cacheGrows env env'.
Proof.
  induction tokens as [|token rest IH]; intros st st' env env' Hrun.
  - cbn in Hrun. injection Hrun as <- <-. apply cacheGrows_refl.
  - cbn [interpretTokens] in Hrun.
    destruct (interpretToken token st env) as [[st1 env1]|e] eqn:Hstep;
      [|discriminate].
    apply IH in Hrun. eapply cacheGrows_trans; [|exact Hrun]. clear Hrun.
    destruct token as [content | | tok | name p]; cbn [interpretToken] in Hstep.
    + pose proof (pushCharacters_cacheGrows content (currentStyle st)
                    (currentStyleHeight st) (renderParts st) env) as Hpush.
      destruct (pushCharacters content (currentStyle st)
                  (currentStyleHeight st) (renderParts st) env) as [ps env2].
      injection Hstep as _ <-. exact Hpush.
    + injection Hstep as _ <-. apply cacheGrows_refl.
    + destruct (textCommands !! commandName tok) as [command|]; [|discriminate].
      destruct (command (currentStyle st) (argument tok) (host env))
        as [style' host'].
      match type of Hstep with
      | context [measureHeight style' ?e] =>
          pose proof (measureHeight_cacheGrows style' e) as Hmeasure;
          destruct (measureHeight style' e) as [h env2]
      end.
      injection Hstep as _ <-. exact Hmeasure.
    + destruct (currentTag st) as [open|]; [|discriminate].
      destruct (bool_decide (name = commandName open)); [|discriminate].
      destruct (tagStack st), (styleStack st); try discriminate.
      injection Hstep as _ <-. apply cacheGrows_refl.
Qed.

(** X3: [measureHeight] measures a font once.  After a call for a style,
    a second call for it returns the same height and leaves the module
    state as it is; and whatever the cache held before the first call it
    still holds after it, under the same key with the same value. *)
Theorem measureHeight_measures_once (style : ITextStyle) (env : Env Host) :
  let env1 := snd (measureHeight style env) in
  measureHeight style env1 = (fst (measureHeight style env), env1) /\
  forall key base,
    heightCache env !! key = Some base ->
    heightCache env1 !! key = Some base.
Proof.
  cbn zeta. split.
  - unfold measureHeight at 2 3 4.
    destruct (heightCache env !! fontKey style) as [base|] eqn:Hlookup;
      cbn [fst snd].
    + unfold measureHeight. now rewrite Hlookup.
    + unfold measureHeight. cbn [heightCache].
      now rewrite lookup_insert_eq.
  - intros key base Hkey.
    destruct (measureHeight_cacheGrows style env) as [Hsub _].
    eapply lookup_weaken; eassumption.
Qed.

(** X4: over a whole interpretation the height cache only grows, and each
    layout measurement comes with a new cache entry: entries present before
    are kept with their values, and the cache has gained as many entries as
    the layout log has gained measurements, so no font descriptor is
    measured twice. *)
Theorem getRenderParts_extends_height_cache
    (tokens : list Token) (baseStyle : ITextStyle) (env env' : Env Host)
    (parts : list RenderItem) :
  getRenderParts tokens baseStyle env = Ok (parts, env') ->
  (forall key base,
     heightCache env !! key = Some base ->
     heightCache env' !! key = Some base) /\
  (size (heightCache env') + length (layoutLog env)
   = size (heightCache env) + length (layoutLog env'))%nat.
Proof.
  intros Hrun. unfold getRenderParts in Hrun.
  pose proof (measureHeight_cacheGrows baseStyle env) as Hfirst.
  destruct (measureHeight baseStyle env) as [h env0]. cbn [snd] in Hfirst.
  destruct (interpretTokens tokens (initialInterp baseStyle h) env0)
    as [[st env1]|e] eqn:Hloop; [|discriminate].
  injection Hrun as _ <-.
  apply interpretTokens_cacheGrows in Hloop.
  destruct (cacheGrows_trans _ _ _ Hfirst Hloop) as [Hsub Hsize].
  split; [|exact Hsize].
  intros key base Hkey. eapply lookup_weaken; eassumption.
Qed.


(** ** Further properties of the interpreter *)

(** X5: a command that is not registered stops the interpretation where it
    stands: when the tokens before it have been interpreted without error,
    [getRenderParts] throws the unknown-command error with the name and
    the position of that token, whatever follows it. *)
Theorem unknown_command_throws
    (pre rest : list Token) (tok : ICommandToken)
    (baseStyle : ITextStyle) (env : Env Host) (r : list RenderItem * Env Host) :
  getRenderParts pre baseStyle env = Ok r ->
  textCommands !! commandName tok = None ->
  getRenderParts (pre ++ TCommand tok :: rest) baseStyle env
  = Throw (UnknownCommand (commandName tok) (pos tok)).
Proof.
  intros Hreach Hunknown. unfold getRenderParts in *.
  destruct (measureHeight baseStyle env) as [h env0].
  rewrite interpretTokens_app.
  destruct (interpretTokens pre (initialInterp baseStyle h) env0)
    as [[st env1]|e]; [|discriminate].
  cbn. now rewrite Hunknown.
Qed.

(** X6: whether [getRenderParts] returns depends on the tags of the stream
    alone, not on the base style, the module state or any measurement: it
    returns a sequence when every command is registered and every close
    names the innermost open tag, and throws otherwise; and what it throws
    is one of its three errors, never the trace of a [pop()] on an empty
    stack. *)
Theorem getRenderParts_returns_iff_tags_nest
    (tokens : list Token) (baseStyle : ITextStyle) (env : Env Host) :
  match openTags tokens [] with
  | Some _ =>
      exists parts env', getRenderParts tokens baseStyle env = Ok (parts, env')
  | None =>
      exists e,
        getRenderParts tokens baseStyle env = Throw e /\ e <> UndefinedAccess
  end.
Proof.
  destruct (openTags tokens []) as [opened|] eqn:Hopen.
  - destruct (getRenderParts_nested tokens baseStyle env opened Hopen)
      as (parts & env' & Hrun & _). eauto.
  - unfold getRenderParts. destruct (measureHeight baseStyle env) as [h env0].
    destruct (interpretTokens_not_nested tokens [] (initialInterp baseStyle h)
                env0 Hopen) as (e & Hrun & Hne); try reflexivity.
    exists e. now rewrite Hrun.
Qed.

Lemma pushCharacters_items (content : list character) (style : ITextStyle)
    (h : Q) (parts : list RenderItem) (env : Env Host) :
  exists items,
    fst (pushCharacters content style h parts env) = parts ++ items /\
    map shape items = map SCharacter content /\
    Forall (fun item =>
              (exists c, type item = character_ c style) /\ height item = h)
      items.
Proof.
  revert parts env. induction content as [|c content IH]; intros parts env.
  - exists []. cbn. rewrite app_nil_r. repeat split; constructor.
  - cbn [pushCharacters]. destruct (measureWidth style c env) as [w env1].
    destruct (IH (parts ++ [mkItem (character_ c style) 0 0 h w]) env1)
      as (items & Heq & Hshape & Hitems).
    exists (mkItem (character_ c style) 0 0 h w :: items).
    rewrite Heq, <- app_assoc. cbn. split; [reflexivity|]. split.
    + now rewrite Hshape.
    + constructor; [|exact Hitems]. split; [now exists c | reflexivity].
Qed.

(** X7: the scope of a command.  For a registered command, a text run
    inside it and a text run after its close: the items of the run inside
    carry the style object the command returned and the line height
    measured for it; the items of the run after the close carry the style
    object in force before the command, with the line height of the closed
    command still (the close restores the style, and leaves
    [currentStyleHeight] as it is). *)
Theorem command_scope_style_and_height
    (tok : ICommandToken) (inside after : list character) (p : N)
    (command : ITextStyle -> option string -> Host -> ITextStyle * Host)
    (st : Interp) (env : Env Host) :
  textCommands !! commandName tok = Some command ->
  let style' := fst (command (currentStyle st) (argument tok) (host env)) in
  let host' := snd (command (currentStyle st) (argument tok) (host env)) in
  let h' :=
    fst (measureHeight style'
           {| heightCache := heightCache env; lastStyle := lastStyle env;
              tmpContext := tmpContext env; layoutLog := layoutLog env;
              host := host' |}) in
  exists st' env' insideItems afterItems,
    interpretTokens
      [ TCommand tok; TText inside; TCommandClose (commandName tok) p;
        TText after ] st env = Ok (st', env') /\
    renderParts st' = renderParts st ++ insideItems ++ afterItems /\
    map shape insideItems = map SCharacter inside /\
    map shape afterItems = map SCharacter after /\
    Forall (fun item =>
              (exists c, type item = character_ c style') /\ height item = h')
      insideItems /\
    Forall (fun item =>
              (exists c, type item = character_ c (currentStyle st)) /\
              height item = h')
      afterItems /\
    currentStyle st' = currentStyle st /\
    currentStyleHeight st' = h'.
Proof.
  intros Hcommand. cbn zeta.
  cbn [interpretTokens interpretToken]. rewrite Hcommand.
  destruct (command (currentStyle st) (argument tok) (host env))
    as [style' host']. cbn [fst snd].
  match goal with
  | |- context [measureHeight style' ?e] =>
      destruct (measureHeight style' e) as [h' env1]
  end.
  cbn [fst renderParts currentStyle currentStyleHeight currentTag tagStack
       styleStack].
  destruct (pushCharacters_items inside style' h' (renderParts st) env1)
    as (insideItems & Hinside & Hshape1 & Hitems1).
  destruct (pushCharacters inside style' h' (renderParts st) env1)
    as [parts1 env2]. cbn [fst] in Hinside. subst parts1.
  cbn [renderParts currentStyle currentStyleHeight currentTag tagStack
       styleStack].
  rewrite bool_decide_eq_true_2 by reflexivity.
  cbn [renderParts currentStyle currentStyleHeight currentTag tagStack
       styleStack].
  destruct (pushCharacters_items after (currentStyle st) h'
              (renderParts st ++ insideItems) env2)
    as (afterItems & Hafter & Hshape2 & Hitems2).
  destruct (pushCharacters after (currentStyle st) h'
              (renderParts st ++ insideItems) env2)
    as [parts2 env3]. cbn [fst] in Hafter. subst parts2.
  eexists _, env3, insideItems, afterItems.
  split; [reflexivity|]. cbn [renderParts currentStyle currentStyleHeight].
  split; [now rewrite <- app_assoc|].
  split; [exact Hshape1|]. split; [exact Hshape2|].
  split; [exact Hitems1|]. split; [exact Hitems2|].
  split; reflexivity.
Qed.


(** ** Further properties of [render] *)

Lemma styleApplications_app (a b : Canvas) :
  styleApplications (a ++ b) = (styleApplications a + styleApplications b)%nat.
Proof. unfold styleApplications. now rewrite List.filter_app, length_app. Qed.

Lemma styleApplications_apply (style : ITextStyle) (ctx : Canvas) :
  styleApplications (applyTextStyleToCanvas style ctx)
  = S (styleApplications ctx).
Proof.
  unfold applyTextStyleToCanvas. rewrite !styleApplications_app.
  destruct (hasStroke style); cbn; lia.
Qed.

Lemma switchStyle_count (style : ITextStyle) (cur : option ITextStyle)
    (ctx : Canvas) :
  fst (switchStyle style cur ctx) = style /\
  styleApplications (snd (switchStyle style cur ctx))
  = (styleApplications ctx + styleSwitches cur [style])%nat.
Proof.
  unfold switchStyle. cbn [styleSwitches]. destruct cur as [cur|].
  - destruct (sameObject style cur) eqn:Hsame; cbn [fst snd].
    + unfold sameObject in Hsame. apply bool_decide_eq_true_1 in Hsame.
      split; [now subst | cbn; lia].
    + rewrite styleApplications_apply. split; [reflexivity | cbn; lia].
  - cbn [fst snd]. rewrite styleApplications_apply.
    split; [reflexivity | cbn; lia].
Qed.

Lemma strokePass_count (parts : list RenderItem) :
  forall (cur : option ITextStyle) (ctx : Canvas),
    fst (strokePass parts cur ctx)
    = match last (charStyles parts) with
      | Some style => Some style
      | None => cur
      end /\
    styleApplications (snd (strokePass parts cur ctx))
    = (styleApplications ctx + styleSwitches cur (charStyles parts))%nat.
Proof.
  induction parts as [|part rest IH]; intros cur ctx.
  - split; [reflexivity|].
    cbn [strokePass snd charStyles flat_map styleSwitches]. lia.
  - cbn [strokePass]. unfold charStyles. cbn [flat_map].
    fold (charStyles rest). destruct (type part) as [c style|].
    + destruct (switchStyle_count style cur ctx) as [Hstyle Hcount].
      destruct (switchStyle style cur ctx) as [cur1 ctx1].
      cbn [fst snd] in Hstyle, Hcount. subst cur1.
      match goal with
      | |- context [strokePass rest (Some style) ?c] =>
          destruct (IH (Some style) c) as [Hlast Hrest]
      end.
      rewrite Hlast, Hrest. cbn [app]. rewrite last_cons. split.
      * destruct (last (charStyles rest)); reflexivity.
      * cbn [styleSwitches] in *.
        destruct (hasStroke style); rewrite ?styleApplications_app; cbn; lia.
    + apply IH.
Qed.

Lemma fillPass_count (parts : list RenderItem) :
  forall (cur : option ITextStyle) (ctx : Canvas),
    styleApplications (snd (fillPass parts cur ctx))
    = (styleApplications ctx + styleSwitches cur (charStyles parts))%nat.
Proof.
  induction parts as [|part rest IH]; intros cur ctx.
  - cbn [fillPass snd charStyles flat_map styleSwitches]. lia.
  - cbn [fillPass]. unfold charStyles. cbn [flat_map].
    fold (charStyles rest). destruct (type part) as [c style|].
    + destruct (switchStyle_count style cur ctx) as [Hstyle Hcount].
      destruct (switchStyle style cur ctx) as [cur1 ctx1].
      cbn [fst snd] in Hstyle, Hcount. subst cur1.
      rewrite IH, styleApplications_app. cbn [app styleSwitches] in *.
      cbn. lia.
    + apply IH.
Qed.

Lemma styleSwitches_same (style : ITextStyle) (styles : list ITextStyle) :
  Forall (fun s => s = style) styles ->
  styleSwitches (Some style) styles = 0%nat.
Proof.
  induction 1 as [|s styles -> _ IH]; [reflexivity|].
  cbn [styleSwitches]. unfold sameObject.
  rewrite bool_decide_eq_true_2 by reflexivity. exact IH.
Qed.

(** X8: [render] gives the canvas a text style only where the style
    object changes from one character item to the next.  The first loop
    applies a style at the first character item and at each change of
    style object; the second loop starts from the style the first one
    ended with.  So a text whose character items all carry one style object
    has that style applied once for the two loops together. *)
Theorem render_applies_style_on_change (parts : list RenderItem) (ctx : Canvas) :
  styleApplications (render parts ctx)
  = (styleApplications ctx
     + styleSwitches None (charStyles parts)
     + styleSwitches (last (charStyles parts)) (charStyles parts))%nat /\
  forall style,
    charStyles parts <> [] ->
    Forall (fun s => s = style) (charStyles parts) ->
    styleApplications (render parts ctx) = S (styleApplications ctx).
Proof.
  assert (styleApplications (render parts ctx)
          = (styleApplications ctx
             + styleSwitches None (charStyles parts)
             + styleSwitches (last (charStyles parts)) (charStyles parts))%nat)
    as Hcount.
  { unfold render.
    destruct (strokePass_count parts None (ctx ++ [Save])) as [Hlast Hstroke].
    destruct (strokePass parts None (ctx ++ [Save])) as [cur ctx1].
    cbn [fst snd] in Hlast, Hstroke.
    pose proof (fillPass_count parts cur ctx1) as Hfill.
    destruct (fillPass parts cur ctx1) as [cur2 ctx2]. cbn [snd] in Hfill.
    rewrite styleApplications_app, Hfill, Hstroke, styleApplications_app.
    assert (cur = last (charStyles parts)) as ->
      by (rewrite Hlast; now destruct (last (charStyles parts))).
    cbn. lia. }
  split; [exact Hcount|].
  intros style Hsome Hall. rewrite Hcount.
  destruct (charStyles parts) as [|s styles] eqn:Hstyles; [congruence|].
  inversion Hall as [|? ? Hs Hrest]. subst s.
  assert (last (style :: styles) = Some style) as ->.
  { rewrite last_cons. destruct (last styles) as [s'|] eqn:Hs'; [|reflexivity].
    apply last_Some_elem_of in Hs'. rewrite Forall_forall in Hrest.
    f_equal. now apply Hrest. }
  rewrite (styleSwitches_same style (style :: styles)) by assumption.
  cbn [styleSwitches]. rewrite (styleSwitches_same style styles) by assumption.
  lia.
Qed.


(** ** Further properties of the alignment pass *)

Lemma placeItems_map_type (line : list RenderItem) (x0 : Q) :
  map type (placeItems x0 line) = map type line.
Proof.
  revert x0. induction line as [|item line IH]; intros x0; cbn; [reflexivity|].
  now rewrite IH.
Qed.

Lemma alignLoop_map_type (alignment : Alignment) (xStart xEnd : Q)
    (lineHeights : list Q) (parts : list RenderItem) :
  forall (y0 : Q) (line : nat) (lineWidth lineHeight : Q)
         (currentLine : list RenderItem),
    map type (alignLoop alignment xStart xEnd lineHeights parts y0 line
                lineWidth lineHeight currentLine)
    = map type currentLine ++ map type parts.
Proof.
  induction parts as [|item rest IH];
    intros y0 line lineWidth lineHeight currentLine.
  - cbn. unfold fixLine. now rewrite placeItems_map_type, app_nil_r.
  - cbn [alignLoop map]. cbn [set_y type].
    destruct (type item) as [c style|] eqn:Htype.
    + rewrite IH, map_app, <- app_assoc. cbn. now rewrite Htype.
    + rewrite map_app. unfold fixLine.
      rewrite placeItems_map_type, IH, map_app, <- app_assoc. cbn.
      now rewrite Htype.
Qed.

Lemma fixAlignment_types (alignment : Alignment) (xStart xEnd yStart : Q)
    (parts : list RenderItem) :
  map type (fixAlignment alignment xStart xEnd yStart parts) = map type parts.
Proof.
  unfold fixAlignment.
  destruct (collectLineHeights parts 0) as [lineHeights lineHeight].
  now rewrite alignLoop_map_type.
Qed.

Lemma fixAlignment_heights (alignment : Alignment) (xStart xEnd yStart : Q)
    (parts : list RenderItem) :
  map height (fixAlignment alignment xStart xEnd yStart parts)
  = map height parts.
Proof.
  unfold fixAlignment.
  destruct (collectLineHeights parts 0) as [lineHeights lineHeight].
  now rewrite alignLoop_map_height.
Qed.

(** X9: [fixAlignment] neither adds, drops nor reorders items, and leaves
    their kind, character, style and height as they are: only [x], [y]
    and [width] are written. *)
Theorem fixAlignment_keeps_items
    (alignment : Alignment) (xStart xEnd yStart : Q) (parts : list RenderItem) :
  length (fixAlignment alignment xStart xEnd yStart parts) = length parts /\
  map type (fixAlignment alignment xStart xEnd yStart parts) = map type parts /\
  map height (fixAlignment alignment xStart xEnd yStart parts)
  = map height parts.
Proof.
  split; [|split].
  - rewrite <- (length_map type), fixAlignment_types. apply length_map.
  - apply fixAlignment_types.
  - apply fixAlignment_heights.
Qed.

Lemma width_addSpacing (item : RenderItem) :
  width (addSpacing item)
  = match type item with
    | character_ _ style => width item + letterSpacing style
    | newline_ => width item
    end.
Proof. unfold addSpacing. now destruct (type item). Qed.

(** X10: [fixAlignment] widens every character item by the letter spacing
    of its own style, whatever its place on the line, and leaves the width
    of newline items alone. *)
Theorem fixAlignment_adds_own_spacing
    (alignment : Alignment) (xStart xEnd yStart : Q) (parts : list RenderItem) :
  map width (fixAlignment alignment xStart xEnd yStart parts)
  = map (fun item =>
           match type item with
           | character_ _ style => width item + letterSpacing style
           | newline_ => width item
           end) parts.
Proof.
  rewrite fixAlignment_widths, map_map.
  apply map_ext. intros item. apply width_addSpacing.
Qed.

Lemma map_by_type_and_width (l1 l2 : list RenderItem) (w : RenderItem -> Q)
    (g : ItemType -> Q -> Q) :
  map type l1 = map type l2 ->
  map width l1 = map w l2 ->
  map (fun item => g (type item) (width item)) l1
  = map (fun item => g (type item) (w item)) l2.
Proof.
  revert l2. induction l1 as [|a l1 IH]; intros [|b l2] Htype Hwidth;
    try discriminate; [reflexivity|].
  cbn in *. injection Htype as Ht Htype. injection Hwidth as Hw Hwidth.
  rewrite Ht, Hw. f_equal. now apply IH.
Qed.

(** X11: the pass is not idempotent on widths: it writes the widened
    width back into the item, so running [fixAlignment] on its own result
    widens every character item by its letter spacing once more. *)
Theorem fixAlignment_twice_adds_spacing_twice
    (a1 a2 : Alignment) (xStart1 xEnd1 yStart1 xStart2 xEnd2 yStart2 : Q)
    (parts : list RenderItem) :
  map width
    (fixAlignment a2 xStart2 xEnd2 yStart2
       (fixAlignment a1 xStart1 xEnd1 yStart1 parts))
  = map (fun item =>
           match type item with
           | character_ _ style =>
               width item + letterSpacing style + letterSpacing style
           | newline_ => width item
           end) parts.
Proof.
  rewrite fixAlignment_widths, map_map.
  rewrite (map_ext _ _ width_addSpacing).
  etransitivity.
  - apply (map_by_type_and_width
             (fixAlignment a1 xStart1 xEnd1 yStart1 parts) parts
             (fun item => width (addSpacing item))
             (fun t w => match t with
                         | character_ _ style => w + letterSpacing style
                         | newline_ => w
                         end)).
    + apply fixAlignment_types.
    + rewrite fixAlignment_widths. apply map_map.
  - apply map_ext. intros item. rewrite width_addSpacing.
    now destruct (type item).
Qed.


Lemma collectLineHeights_ext (parts parts' : list RenderItem) :
  map isNewline parts = map isNewline parts' ->
  map height parts = map height parts' ->
  forall lineHeight,
    collectLineHeights parts lineHeight = collectLineHeights parts' lineHeight.
Proof.
  revert parts'. induction parts as [|a parts IH]; intros [|b parts'] Hn Hh;
    try discriminate; [reflexivity|].
  cbn in Hn, Hh. injection Hn as Hna Hn. injection Hh as Hha Hh.
  intros lineHeight. cbn [collectLineHeights]. rewrite Hna, Hha.
  now rewrite (IH parts' Hn Hh).
Qed.

Lemma ysFrom_ext (lineHeights : list Q) (parts parts' : list RenderItem) :
  map isNewline parts = map isNewline parts' ->
  forall y0 line,
    ysFrom lineHeights parts y0 line = ysFrom lineHeights parts' y0 line.
Proof.
  revert parts'. induction parts as [|a parts IH]; intros [|b parts'] Hn;
    try discriminate; [reflexivity|].
  cbn in Hn. injection Hn as Hna Hn. intros y0 line.
  cbn [ysFrom]. rewrite Hna. now rewrite !(IH parts' Hn).
Qed.

(** X12: the [y] coordinates depend on [yStart], on the heights of the
    items and on where the newline items are, and on nothing else: not on
    the alignment, not on [xStart] or [xEnd], not on the characters,
    styles, widths or earlier coordinates of the items. *)
Theorem fixAlignment_y_depends_on_heights_only
    (a a' : Alignment) (xStart xEnd xStart' xEnd' yStart : Q)
    (parts parts' : list RenderItem) :
  map isNewline parts = map isNewline parts' ->
  map height parts = map height parts' ->
  map y (fixAlignment a xStart xEnd yStart parts)
  = map y (fixAlignment a' xStart' xEnd' yStart parts').
Proof.
  intros Hn Hh. unfold fixAlignment.
  rewrite (collectLineHeights_ext parts parts' Hn Hh).
  destruct (collectLineHeights parts' 0) as [lineHeights lineHeight].
  rewrite !alignLoop_map_y. cbn [map app].
  now apply ysFrom_ext.
Qed.

Lemma placeItems_abut (line : list RenderItem) :
  forall (x0 : Q) (i : nat) (a b : RenderItem),
    placeItems x0 line !! i = Some a ->
    placeItems x0 line !! S i = Some b ->
    x b = x a + width a.
Proof.
  induction line as [|item line IH]; intros x0 i a b Ha Hb; [discriminate|].
  destruct i as [|i]; cbn in Ha, Hb.
  - injection Ha as <-. destruct line as [|item2 line]; [discriminate|].
    cbn in Hb. injection Hb as <-. reflexivity.
  - eapply IH; eassumption.
Qed.

Lemma placeItems_snoc (line : list RenderItem) (item : RenderItem) :
  forall x0, exists x',
    placeItems x0 (line ++ [item]) = placeItems x0 line ++ [set_x x' item].
Proof.
  induction line as [|a line IH]; intros x0.
  - exists x0. reflexivity.
  - destruct (IH (x0 + width a)) as [x' Heq]. exists x'.
    cbn. now rewrite Heq.
Qed.

Lemma alignLoop_abut (alignment : Alignment) (xStart xEnd : Q)
    (lineHeights : list Q) (parts : list RenderItem) :
  forall (y0 : Q) (line : nat) (lineWidth lineHeight : Q)
         (currentLine : list RenderItem) (i : nat) (a b : RenderItem),
    alignLoop alignment xStart xEnd lineHeights parts y0 line lineWidth
      lineHeight currentLine !! i = Some a ->
    alignLoop alignment xStart xEnd lineHeights parts y0 line lineWidth
      lineHeight currentLine !! S i = Some b ->
    isNewline a = false ->
    x b = x a + width a.
Proof.
  induction parts as [|item rest IH];
    intros y0 line lineWidth lineHeight currentLine i a b Ha Hb Hnot.
  - cbn in Ha, Hb. unfold fixLine in *. eapply placeItems_abut; eassumption.
  - cbn [alignLoop] in Ha, Hb. cbn [set_y type] in Ha, Hb.
    destruct (type item) as [c style|] eqn:Htype.
    + eapply IH; eassumption.
    + unfold fixLine in Ha, Hb.
      match type of Ha with
      | (placeItems ?x0 (_ ++ [?it]) ++ _) !! _ = _ =>
          destruct (placeItems_snoc currentLine it x0) as [x' Hsnoc]
      end.
      rewrite Hsnoc in Ha, Hb. rewrite <- app_assoc in Ha, Hb.
      cbn [app] in Ha, Hb.
      set (first := placeItems
                      (lineStart alignment xStart xEnd
                         (lineWidth + width (set_y y0 item))) currentLine)
        in *.
      destruct (Nat.lt_trichotomy (S i) (length first)) as [Hlt|[Heq|Hgt]].
      * rewrite lookup_app_l in Ha, Hb by lia.
        eapply placeItems_abut; eassumption.
      * rewrite lookup_app_l in Ha by lia.
        rewrite lookup_app_r in Hb by lia.
        replace (S i - length first)%nat with 0%nat in Hb by lia.
        cbn in Hb. injection Hb as <-.
        eapply (placeItems_abut (currentLine ++ [set_y y0 item]) _ i);
          rewrite Hsnoc.
        -- rewrite lookup_app_l by lia. exact Ha.
        -- rewrite lookup_app_r by lia.
           replace (S i - length first)%nat with 0%nat by lia. reflexivity.
      * rewrite lookup_app_r in Ha by lia.
        rewrite lookup_app_r in Hb by lia.
        destruct (i - length first)%nat as [|j] eqn:Hj.
        -- cbn in Ha. injection Ha as <-.
           unfold isNewline in Hnot. cbn in Hnot. rewrite Htype in Hnot.
           discriminate.
        -- replace (S i - length first)%nat with (S (S j)) in Hb by lia.
           cbn in Ha, Hb. eapply IH; eassumption.
Qed.

(** X13: on a line the items abut: after [fixAlignment], an item that
    follows an item other than a newline starts exactly where that item
    ends, at its [x] plus its (widened) width. *)
Theorem fixAlignment_items_abut
    (alignment : Alignment) (xStart xEnd yStart : Q) (parts : list RenderItem)
    (i : nat) (a b : RenderItem) :
  fixAlignment alignment xStart xEnd yStart parts !! i = Some a ->
  fixAlignment alignment xStart xEnd yStart parts !! S i = Some b ->
  isNewline a = false ->
  x b = x a + width a.
Proof.
  unfold fixAlignment.
  destruct (collectLineHeights parts 0) as [lineHeights lineHeight].
  apply alignLoop_abut.
Qed.











(** ** Further properties of [quote] *)

Lemma measureWidth_keeps_heights (style : ITextStyle) (c : character)
    (env : Env Host) :
  heightCache (snd (measureWidth style c env)) = heightCache env /\
  layoutLog (snd (measureWidth style c env)) = layoutLog env.
Proof.
  unfold measureWidth. cbn [snd].
  destruct (lastStyle env) as [l|]; [destruct (sameObject style l)|];
    split; reflexivity.
Qed.

(** X15: [quote] always completes, and it only inserts.  Although its loop
    runs over an array that grows under it, it ends; the item it reads at
    [lastChar] is always a character item; the items of the sequence are
    all kept, in their order, with either none or two items added; and the
    height cache and the layout log are not touched. *)
Theorem quote_only_inserts (parts : list RenderItem) (env : Env Host) :
  exists parts' env',
    quote parts env = Some (parts', env') /\
    parts `sublist_of` parts' /\
    (length parts' = length parts \/ length parts' = (length parts + 2)%nat) /\
    heightCache env' = heightCache env /\
    layoutLog env' = layoutLog env.
Proof.
  destruct (visible_span parts)
    as [Hall | (pre & body0 & post & first & tail & lastItem
                & -> & Hbody & Hpre & Hpost & Hf & Hl)].
  - exists parts, env. rewrite quote_blank by assumption.
    repeat split; try reflexivity. now left.
  - apply blank_false_character in Hf as (c1 & style1 & Hfirst & Hc1).
    apply blank_false_character in Hl as (c2 & style2 & Hlast & Hc2).
    pose proof (quote_visible pre body0 post first lastItem c1 c2 style1 style2
                  tail env Hpre Hpost Hbody Hfirst Hc1 Hlast Hc2) as Hquote.
    destruct (measureWidth_keeps_heights style1 quoteChar env) as [Hc Hlog].
    destruct (measureWidth style1 quoteChar env) as [w1 env1].
    cbn [snd] in Hc, Hlog.
    destruct (measureWidth_keeps_heights style2 quoteChar env1) as [Hc' Hlog'].
    destruct (measureWidth style2 quoteChar env1) as [w2 env2].
    cbn [snd] in Hc', Hlog'.
    eexists _, env2. split; [exact Hquote|]. split; [|split; [|split]].
    + apply sublist_app; [reflexivity|]. apply sublist_cons.
      apply sublist_app; [reflexivity|]. now apply sublist_cons.
    + right. rewrite !length_app. cbn. rewrite !length_app. cbn. lia.
    + congruence.
    + congruence.
Qed.

(** X16: [quote] is not idempotent.  The quotation marks it inserts are
    themselves visible characters, so a second call on the result puts a
    second pair around the first: the sequence is longer by 4, with two
    quotation marks before the visible span and two after it. *)
Theorem quote_twice_nests
    (parts parts1 parts2 : list RenderItem) (env env1 env2 : Env Host) :
  Exists (fun item => blank item = false) parts ->
  quote parts env = Some (parts1, env1) ->
  quote parts1 env1 = Some (parts2, env2) ->
  length parts2 = (length parts + 4)%nat /\
  exists pre body post outer1 inner1 inner2 outer2,
    parts = pre ++ body ++ post /\
    Forall (fun item => blank item = true) pre /\
    Forall (fun item => blank item = true) post /\
    parts2 = pre ++ outer1 :: inner1 :: body ++ inner2 :: outer2 :: post /\
    Forall (fun item => exists style, type item = character_ quoteChar style)
      [outer1; inner1; inner2; outer2].
Proof.
  intros Hvisible Hfirstrun Hsecond.
  destruct (visible_span parts)
    as [Hall | (pre & body0 & post & first & tail & lastItem
                & -> & Hbody & Hpre & Hpost & Hf & Hl)].
  { apply Exists_exists in Hvisible as (item & Hin & Hitem).
    rewrite Forall_forall in Hall. rewrite (Hall item Hin) in Hitem.
    discriminate. }
  apply blank_false_character in Hf as (c1 & style1 & Hfirst & Hc1).
  apply blank_false_character in Hl as (c2 & style2 & Hlast & Hc2).
  pose proof (quote_visible pre body0 post first lastItem c1 c2 style1 style2
                tail env Hpre Hpost Hbody Hfirst Hc1 Hlast Hc2) as Hquote.
  destruct (measureWidth style1 quoteChar env) as [w1 e1].
  destruct (measureWidth style2 quoteChar e1) as [w2 e2].
  rewrite Hquote in Hfirstrun. injection Hfirstrun as <- <-.
  set (q1 := quoteItem style1 (height first) w1) in *.
  set (q2 := quoteItem style2 (height lastItem) w2) in *.
  pose proof (quote_visible pre (q1 :: first :: tail) post q1 q2
                quoteChar quoteChar style1 style2
                ((first :: tail) ++ [q2]) e2 Hpre Hpost eq_refl eq_refl
                eq_refl eq_refl eq_refl) as Hquote2.
  destruct (measureWidth style1 quoteChar e2) as [w3 e3].
  destruct (measureWidth style2 quoteChar e3) as [w4 e4].
  replace (pre ++ (q1 :: (first :: tail) ++ [q2]) ++ post)
    with (pre ++ q1 :: first :: tail ++ q2 :: post) in Hquote2
    by (cbn; now rewrite <- !app_assoc).
  cbn [app] in Hsecond. rewrite Hquote2 in Hsecond.
  injection Hsecond as <- <-.
  split.
  - repeat (rewrite ?length_app; cbn [length app]). lia.
  - exists pre, (first :: tail), post,
           (quoteItem style1 (height q1) w3), q1, q2,
           (quoteItem style2 (height q2) w4).
    split; [reflexivity|]. split; [exact Hpre|]. split; [exact Hpost|]. split.
    + cbn. now rewrite <- !app_assoc.
    + repeat constructor; eexists; reflexivity.
Qed.


(** ** What a text style does to a canvas *)

(** X24: of a text style, only the font (slant, weight, size, family),
    the stroke, the alpha and the colour reach a canvas.  Two styles that
    agree on these configure a canvas in the same way, whatever their
    identity, underline and strikethrough flags, letter spacing and line
    spacing are; and applying a style makes no draw call. *)
Theorem applyTextStyleToCanvas_ignores_decoration
    (s1 s2 : ITextStyle) (ctx : Canvas) :
  isItalic s1 = isItalic s2 ->
  isBold s1 = isBold s2 ->
  fontSize s1 = fontSize s2 ->
  fontName s1 = fontName s2 ->
  strokeWidth s1 = strokeWidth s2 ->
  strokeColor s1 = strokeColor s2 ->
  alpha s1 = alpha s2 ->
  color s1 = color s2 ->
  applyTextStyleToCanvas s1 ctx = applyTextStyleToCanvas s2 ctx /\
  drawCalls (applyTextStyleToCanvas s1 ctx) = drawCalls ctx.
Proof.
  intros Hitalic Hbold Hsize Hname Hwidth Hcolor Halpha Hfill. split.
  - unfold applyTextStyleToCanvas, hasStroke.
    now rewrite Hitalic, Hbold, Hsize, Hname, Hwidth, Hcolor, Halpha, Hfill.
  - unfold applyTextStyleToCanvas. rewrite !drawCalls_app.
    destruct (hasStroke s1); cbn; now rewrite app_nil_r.
Qed.


End Renderer.

(** ** The properties on the sample data *)

Lemma measureHeight_cached_shared_entry_sample :
  fontKey sampleNumberToString sampleStyle
    = fontKey sampleNumberToString sampleBoldStyle /\
  measureHeight sampleNumberToString sampleOffsetHeight nat sampleStyle sampleWarmEnv
    = (24 * 1, sampleWarmEnv) /\
  measureHeight sampleNumberToString sampleOffsetHeight nat sampleBoldStyle sampleWarmEnv
    = (24 * (3 # 2), sampleWarmEnv).
Proof.
  apply (measureHeight_cached_shared_entry sampleNumberToString sampleOffsetHeight
           nat sampleStyle sampleBoldStyle sampleWarmEnv 24).
  - reflexivity.
  - reflexivity.
  - vm_compute. reflexivity.
Defined.

Local Abbreviation sample_getRenderParts :=
  (getRenderParts sampleNumberToString sampleMeasureText sampleOffsetHeight
     nat sampleCommands).
Local Abbreviation sample_interpretTokens :=
  (interpretTokens sampleNumberToString sampleMeasureText sampleOffsetHeight
     nat sampleCommands).
Local Abbreviation sample_openTags := (openTags nat sampleCommands).

Lemma getRenderParts_one_item_per_character_sample :
  exists parts env',
    sample_getRenderParts sampleTokens sampleStyle sampleEnv = Ok (parts, env') /\
    map shape parts =
      [ SCharacter 72; SCharacter 101; SCharacter 108; SCharacter 108;
        SCharacter 111; SNewline; SCharacter 87; SCharacter 111;
        SCharacter 114; SCharacter 108; SCharacter 100 ]%N /\
    Forall (fun item => x item = 0 /\ y item = 0) parts.
Proof.
  apply (getRenderParts_one_item_per_character sampleNumberToString
           sampleMeasureText sampleOffsetHeight nat sampleCommands
           sampleTokens sampleStyle sampleEnv).
  - vm_compute. reflexivity.
  - repeat constructor; discriminate.
Defined.

(** C5, as stated, fails: a stream that ends with the bold tag open is
    interpreted to the end and its five items are returned. *)
Lemma getRenderParts_unclosed_tag_returns :
  sample_openTags sampleUnclosed [] = Some [sampleB] /\
  (exists parts env',
     sample_getRenderParts sampleUnclosed sampleStyle sampleEnv
       = Ok (parts, env') /\
     length parts = 5%nat) /\
  ~ (exists e,
       sample_getRenderParts sampleUnclosed sampleStyle sampleEnv = Throw e).
Proof.
  split; [vm_compute; reflexivity|]. split.
  - destruct (sample_getRenderParts sampleUnclosed sampleStyle sampleEnv)
      as [[parts env']|e] eqn:Hrun.
    + exists parts, env'. split; [reflexivity|].
      vm_compute in Hrun. injection Hrun as <- _. reflexivity.
    + vm_compute in Hrun. discriminate.
  - intros [e Hrun]. vm_compute in Hrun. discriminate.
Qed.

Lemma getRenderParts_tolerates_open_tags_sample :
  exists parts env',
    sample_getRenderParts sampleUnclosed sampleStyle sampleEnv = Ok (parts, env') /\
    map shape parts =
      [ SCharacter 72; SCharacter 101; SCharacter 108; SCharacter 108;
        SCharacter 111 ]%N.
Proof.
  apply (getRenderParts_tolerates_open_tags sampleNumberToString
           sampleMeasureText sampleOffsetHeight nat sampleCommands
           sampleUnclosed sampleStyle sampleEnv [sampleB]).
  vm_compute. reflexivity.
Defined.

Lemma close_must_name_innermost_tag_sample :
  sample_getRenderParts
    (sampleCrossing ++ TCommandClose "b" 9%N :: [TCommandClose "i" 13%N])
    sampleStyle sampleEnv
    = Throw (MismatchedClose "b" 9%N sampleI) /\
  sample_getRenderParts ([TText [72]%N] ++ TCommandClose "b" 1%N :: [])
    sampleStyle sampleEnv
    = Throw (UnmatchedClose "b" 1%N).
Proof.
  split.
  - destruct (sample_getRenderParts sampleCrossing sampleStyle sampleEnv)
      as [r|e] eqn:Hreach.
    + destruct (close_must_name_innermost_tag sampleNumberToString
                  sampleMeasureText sampleOffsetHeight nat sampleCommands
                  sampleCrossing [TCommandClose "i" 13%N] "b" 9%N
                  sampleStyle sampleEnv r Hreach)
        as (opened & Hopen & _ & Hmismatch).
      vm_compute in Hopen. injection Hopen as <-.
      apply (Hmismatch sampleI [sampleB]); [reflexivity | discriminate].
    + vm_compute in Hreach. discriminate.
  - destruct (sample_getRenderParts [TText [72]%N] sampleStyle sampleEnv)
      as [r|e] eqn:Hreach.
    + destruct (close_must_name_innermost_tag sampleNumberToString
                  sampleMeasureText sampleOffsetHeight nat sampleCommands
                  [TText [72]%N] [] "b" 1%N sampleStyle sampleEnv r Hreach)
        as (opened & Hopen & Hunmatched & _).
      vm_compute in Hopen. injection Hopen as <-.
      apply Hunmatched. reflexivity.
    + vm_compute in Hreach. discriminate.
Defined.

Lemma close_restores_style_object_sample :
  exists st' env',
    sample_interpretTokens
      (TCommand sampleB :: sampleInner ++ [TCommandClose "b" 16%N])
      (initialInterp sampleStyle 24) sampleEnv = Ok (st', env') /\
    currentStyle st' = sampleStyle.
Proof.
  destruct (close_restores_style_object sampleNumberToString sampleMeasureText
              sampleOffsetHeight nat sampleCommands sampleB sampleInner 16%N
              (initialInterp sampleStyle 24) sampleEnv)
    as (st' & env' & Hrun & Hstyle & _).
  - exists sampleBold. vm_compute. reflexivity.
  - vm_compute. reflexivity.
  - exists st', env'. split; [exact Hrun | exact Hstyle].
Defined.

Local Abbreviation sample_quote :=
  (quote sampleNumberToString sampleMeasureText nat).

Lemma quote_brackets_visible_span_sample :
  sample_quote [sampleChar 32%N 24 10 0; sampleNewline 24] sampleEnv
    = Some ([sampleChar 32%N 24 10 0; sampleNewline 24], sampleEnv) /\
  exists parts' env',
    sample_quote sampleParts sampleEnv = Some (parts', env') /\
    length parts' = 7%nat.
Proof.
  split.
  - apply (quote_brackets_visible_span sampleNumberToString sampleMeasureText
             nat [sampleChar 32%N 24 10 0; sampleNewline 24] sampleEnv).
    repeat constructor.
  - destruct (quote_brackets_visible_span sampleNumberToString
                sampleMeasureText nat sampleParts sampleEnv) as [_ Hvisible].
    destruct Hvisible
      as (pre & body & post & first & lastItem & c1 & style1 & c2 & style2
          & w1 & env1 & w2 & env2 & _ & _ & _ & _ & _ & _ & _ & _ & _ & _ & _
          & Hquote & Hlength).
    + do 2 apply Exists_cons_tl. apply Exists_cons_hd. reflexivity.
    + eexists _, env2. split; [exact Hquote|].
      apply (Hlength _ env2 Hquote).
Defined.

(** [quote] on two spaces, [Hi] and a line break. *)
Example quote_sample :
  exists env',
    sample_quote sampleParts sampleEnv
    = Some ([ sampleChar 32%N 24 10 0; sampleChar 32%N 24 10 0;
              sampleChar quoteChar 24 10 0;
              sampleChar 72%N 24 10 0; sampleChar 105%N 24 10 0;
              sampleChar quoteChar 24 10 0; sampleNewline 24 ], env').
Proof. eexists. vm_compute. reflexivity. Qed.

(** C3, as stated, fails: the second line of [sampleRisingLines] comes
    after one line of height 10, and its item is put at [y = 20], the
    height of the line entered. *)
Lemma fixAlignment_y_not_sum_of_lines_before :
  exists item,
    fixAlignment alignLeft 0 100 0 sampleRisingLines !! 2%nat = Some item /\
    lineOf sampleRisingLines 2 = 1%nat /\
    take 1 (lineHeightsBySpec sampleRisingLines 0) = [10] /\
    y item == 20 /\
    ~ y item == 0 + sumQ (take (lineOf sampleRisingLines 2)
                            (lineHeightsBySpec sampleRisingLines 0)).
Proof.
  eexists. split; [vm_compute; reflexivity|].
  split; [reflexivity|]. split; [vm_compute; reflexivity|].
  split; [vm_compute; reflexivity|].
  vm_compute. discriminate.
Qed.

Lemma fixAlignment_y_by_recorded_heights_sample :
  exists item,
    fixAlignment alignLeft 0 100 0 sampleFallingLines !! 4%nat = Some item /\
    fst (collectLineHeights sampleFallingLines 0) = [20; 20; 20] /\
    y item == 40.
Proof.
  eexists. split; [vm_compute; reflexivity|].
  split; [vm_compute; reflexivity|].
  etransitivity.
  - apply (fixAlignment_y_by_recorded_heights alignLeft 0 100 0
             sampleFallingLines 4 _ eq_refl).
  - vm_compute. reflexivity.
Defined.

(** The first pass keeps a running maximum over the whole sequence, where
    the heights of the lines taken one by one are 20, 10 and 5. *)
Example collectLineHeights_running_maximum :
  fst (collectLineHeights sampleFallingLines 0) = [20; 20; 20] /\
  lineHeightsBySpec sampleFallingLines 0 = [20; 10; 5].
Proof. split; vm_compute; reflexivity. Qed.

Lemma sampleLine30_no_spacing :
  Forall (fun item => exists c style,
            type item = character_ c style /\ letterSpacing style == 0)
    sampleLine30.
Proof. repeat constructor; eexists _, _; split; reflexivity. Defined.

Lemma sampleLine20_no_spacing :
  Forall (fun item => exists c style,
            type item = character_ c style /\ letterSpacing style == 0)
    sampleLine20.
Proof. repeat constructor; eexists _, _; split; reflexivity. Defined.

Lemma fixAlignment_single_line_x_sample :
  (exists a b c,
     fixAlignment alignLeft 0 100 0 sampleLine30 = [a; b; c] /\
     x a == 0 /\ x b == 10 /\ x c == 20) /\
  (exists a b c,
     fixAlignment alignRight 0 100 0 sampleLine30 = [a; b; c] /\
     x a == 70 /\ x c + width c == 100) /\
  (exists a b,
     fixAlignment alignCenter 0 100 0 sampleLine20 = [a; b] /\
     x a == 40).
Proof.
  split; [|split].
  - eexists _, _, _. split; [vm_compute; reflexivity|]. split; [|split].
    + etransitivity.
      * apply (fixAlignment_single_line_x alignLeft 0 100 0 sampleLine30 0 _
                 sampleLine30_no_spacing). vm_compute. reflexivity.
      * vm_compute. reflexivity.
    + etransitivity.
      * apply (fixAlignment_single_line_x alignLeft 0 100 0 sampleLine30 1 _
                 sampleLine30_no_spacing). vm_compute. reflexivity.
      * vm_compute. reflexivity.
    + etransitivity.
      * apply (fixAlignment_single_line_x alignLeft 0 100 0 sampleLine30 2 _
                 sampleLine30_no_spacing). vm_compute. reflexivity.
      * vm_compute. reflexivity.
  - eexists _, _, _. split; [vm_compute; reflexivity|]. split.
    + etransitivity.
      * apply (fixAlignment_single_line_x alignRight 0 100 0 sampleLine30 0 _
                 sampleLine30_no_spacing). vm_compute. reflexivity.
      * vm_compute. reflexivity.
    + vm_compute. reflexivity.
  - eexists _, _. split; [vm_compute; reflexivity|].
    etransitivity.
    + apply (fixAlignment_single_line_x alignCenter 0 100 0 sampleLine20 0 _
               sampleLine20_no_spacing). vm_compute. reflexivity.
    + vm_compute. reflexivity.
Defined.

Local Abbreviation sample_render := (render sampleNumberToString).

Lemma render_strokes_then_fills_sample :
  exists first second,
    sample_render sampleRisingLines [] = first ++ second /\
    drawCalls first = [ StrokeText 65%N 0 0; StrokeText 66%N 0 0 ] /\
    drawCalls second = [ FillText 65%N 0 0; FillText 66%N 0 0 ].
Proof.
  destruct (render_strokes_then_fills sampleNumberToString sampleRisingLines [])
    as (first & second & Hrender & Hstrokes & Hfills & _).
  exists first, second. split; [exact Hrender|].
  split; [exact Hstrokes | exact Hfills].
Defined.

(** A first measurement of a font is logged and cached. *)
Example measureHeight_miss_sample :
  measureHeight sampleNumberToString sampleOffsetHeight nat sampleStyle sampleEnv
  = (24 * 1, sampleWarmEnv).
Proof. vm_compute. reflexivity. Qed.

(** ** Properties of sprites *)



(** ** Properties of the Electron environment *)

Lemma splitOn_nonempty (sep : Ascii.ascii) (s : string) : splitOn sep s <> [].
Proof.
  induction s as [|c s IH]; cbn; [discriminate|].
  destruct (Ascii.eqb c sep); [discriminate|].
  destruct (splitOn sep s); discriminate.
Qed.

Lemma append_cons (c : Ascii.ascii) (a b : string) :
  String c a +:+ b = String c (a +:+ b).
Proof. reflexivity. Qed.

(** The last segment of a split: what follows the last separator. *)
Lemma splitOn_last (sep : Ascii.ascii) (s : string) :
  exists dir,
    s = dir +:+ List.last (splitOn sep s) "" /\
    occursIn sep (List.last (splitOn sep s) "") = false /\
    match splitOn sep s with
    | [_] => dir = ""
    | _ => exists d, dir = d +:+ String sep ""
    end.
Proof.
  induction s as [|c s (dir & Hs & Hocc & Hdir)].
  - exists "". repeat split.
  - pose proof (splitOn_nonempty sep s) as Hne.
    cbn [splitOn]. destruct (Ascii.eqb c sep) eqn:Hc.
    + apply Ascii.eqb_eq in Hc. subst c.
      destruct (splitOn sep s) as [|seg segs] eqn:Hsplit; [congruence|].
      exists (String sep dir).
      change (List.last ("" :: seg :: segs) "")
        with (List.last (seg :: segs) "").
      split; [|split].
      * rewrite append_cons. now f_equal.
      * exact Hocc.
      * destruct segs as [|seg2 segs].
        -- subst dir. now exists "".
        -- destruct Hdir as [d ->]. now exists (String sep d).
    + destruct (splitOn sep s) as [|seg segs] eqn:Hsplit; [congruence|].
      destruct segs as [|seg2 segs].
      * subst dir. exists "".
        change (List.last [seg] "") with seg in Hs, Hocc.
        change (List.last [String c seg] "") with (String c seg).
        change ("" +:+ seg) with seg in Hs. subst s.
        split; [reflexivity|]. split; [|reflexivity].
        cbn [occursIn]. now rewrite Hc.
      * exists (String c dir).
        change (List.last (String c seg :: seg2 :: segs) "")
          with (List.last (seg2 :: segs) "").
        change (List.last (seg :: seg2 :: segs) "")
          with (List.last (seg2 :: segs) "") in Hs, Hocc.
        split; [|split].
        -- rewrite append_cons. now f_equal.
        -- exact Hocc.
        -- destruct Hdir as [d ->]. now exists (String c d).
Qed.

Lemma Electron_invalidate_keeps (handle : N) (st : Electron.State) :
  Electron.installedBackgrounds (Electron.invalidateInstalledBGs handle st)
  = Electron.installedBackgrounds st /\
  Electron.pendingContentPacks (Electron.invalidateInstalledBGs handle st)
  = Electron.pendingContentPacks st /\
  Electron.connected (Electron.invalidateInstalledBGs handle st)
  = Electron.connected st.
Proof.
  unfold Electron.invalidateInstalledBGs.
  destruct (Electron.connected st) eqn:Hc; cbn [negb];
    [destruct (Electron.bgInvalidation st)|]; repeat split; try assumption.
Qed.

(** X19: a persistent background is filed under its path and labelled
    with its file name.  The listener appends one entry to the pack of
    installed backgrounds; its id is ['persistentBg-'] followed by the
    whole path, its only variant is that id, and its label is what follows
    the last slash of the path: the path is a directory part, empty or
    ending in a slash, followed by the label, and the label holds no
    slash. *)
Theorem Electron_background_label_is_file_name
    (filepath : string) (handle : N) (st : Electron.State) :
  exists entry dir,
    Electron.installedBackgrounds
      (Electron.onAddPersistentBackground filepath handle st)
    = Electron.installedBackgrounds st ++ [entry] /\
    Electron.id entry = "persistentBg-" +:+ filepath /\
    Electron.variants entry = [[Electron.id entry]] /\
    Electron.scaling entry = "none" /\
    filepath = dir +:+ Electron.label entry /\
    occursIn "/" (Electron.label entry) = false /\
    (dir = "" \/ exists d, dir = d +:+ "/").
Proof.
  destruct (splitOn_last "/" filepath) as (dir & Hpath & Hocc & Hdir).
  unfold Electron.onAddPersistentBackground. cbn zeta.
  destruct (Electron_invalidate_keeps handle
              {| Electron.downloadLocation := Electron.downloadLocation st;
                 Electron.autoAdd := Electron.autoAdd st;
                 Electron.vuexHistory := Electron.vuexHistory st;
                 Electron.store := Electron.store st;
                 Electron.bgInvalidation := Electron.bgInvalidation st;
                 Electron.pendingContentPacks := Electron.pendingContentPacks st;
                 Electron.installedBackgrounds :=
                   Electron.installedBackgrounds st ++
                   [ {| Electron.id := "persistentBg-" +:+ filepath;
                        Electron.variants := [["persistentBg-" +:+ filepath]];
                        Electron.label :=
                          List.last (splitOn "/" filepath) "";
                        Electron.scaling := "none" |} ];
                 Electron.effects :=
                   Electron.effects st ++
                   [Electron.RegisterAssetWithURL
                      ("persistentBg-" +:+ filepath) filepath] |})
    as (Hbg & _ & _).
  cbn [Electron.emit Electron.downloadLocation Electron.autoAdd
       Electron.vuexHistory Electron.store Electron.bgInvalidation
       Electron.pendingContentPacks Electron.installedBackgrounds
       Electron.effects] in *.
  eexists _, dir. split; [exact Hbg|]. cbn.
  repeat split; try assumption.
  destruct (splitOn "/" filepath) as [|seg [|seg2 segs]]; auto.
Qed.

Lemma Electron_step_unconnected (st : Electron.State) (e : Electron.Event) :
  Electron.connected st = false ->
  Electron.isConnect e = false ->
  Electron.connected (Electron.step st e) = false /\
  List.filter Electron.isTransaction (Electron.effects (Electron.step st e))
  = List.filter Electron.isTransaction (Electron.effects st) /\
  List.filter Electron.isFrameRequest (Electron.effects (Electron.step st e))
  = List.filter Electron.isFrameRequest (Electron.effects st).
Proof.
  intros Hc He.
  destruct st as [dl aa vh sr bg pend ibg eff].
  unfold Electron.connected in Hc. cbn in Hc.
  assert (vh = None \/ sr = None) as Hnone
    by (destruct vh, sr; try discriminate; auto).
  clear Hc.
  destruct e; try discriminate; cbn [Electron.step];
    unfold Electron.onAddPersistentContentPack,
      Electron.onAddPersistentBackground, Electron.invalidateInstalledBGs,
      Electron.onPushMessage, Electron.onDownloadFolderUpdate,
      Electron.onAutoLoadChanged, Electron.updateInstalledBGs,
      Electron.connected, Electron.emit, Electron.set_bgInvalidation;
    cbn;
    try (destruct bg as [h|]; [destruct (h =? 0)%N|]; cbn);
    destruct Hnone as [-> | ->]; try destruct vh; cbn;
    rewrite ?List.filter_app; cbn; rewrite ?app_nil_r; auto.
Qed.

Lemma Electron_run_unconnected (events : list Electron.Event) :
  forall st,
    Electron.connected st = false ->
    Forall (fun e => Electron.isConnect e = false) events ->
    Electron.connected (Electron.run events st) = false /\
    List.filter Electron.isTransaction (Electron.effects (Electron.run events st))
    = List.filter Electron.isTransaction (Electron.effects st) /\
    List.filter Electron.isFrameRequest
      (Electron.effects (Electron.run events st))
    = List.filter Electron.isFrameRequest (Electron.effects st).
Proof.
  induction events as [|e events IH]; intros st Hc Hall.
  - repeat split. exact Hc.
  - inversion Hall as [|? ? He Hrest]; subst.
    destruct (Electron_step_unconnected st e Hc He) as (Hc1 & Ht1 & Hf1).
    destruct (IH (Electron.step st e) Hc1 Hrest) as (Hc2 & Ht2 & Hf2).
    unfold Electron.run in *. cbn [fold_left].
    split; [exact Hc2|]. split; congruence.
Qed.

(** X20: nothing reaches the store before [connectToStore].  Whatever
    messages arrive, in whatever order, and whatever animation frames
    fire, as long as [connectToStore] has not been called the environment
    starts no transaction and requests no animation frame. *)
Theorem Electron_silent_until_connected (events : list Electron.Event) :
  Forall (fun e => Electron.isConnect e = false) events ->
  List.filter Electron.isTransaction
    (Electron.effects (Electron.run events Electron.initial)) = [] /\
  List.filter Electron.isFrameRequest
    (Electron.effects (Electron.run events Electron.initial)) = [].
Proof.
  intros Hall.
  destruct (Electron_run_unconnected events Electron.initial eq_refl Hall)
    as (_ & Ht & Hf).
  rewrite Ht, Hf. split; reflexivity.
Qed.

Lemma Electron_run_content_packs (paths : list string) :
  forall st,
    Electron.connected st = false ->
    Electron.effects
      (Electron.run (map Electron.AddPersistentContentPack paths) st)
    = Electron.effects st /\
    Electron.pendingContentPacks
      (Electron.run (map Electron.AddPersistentContentPack paths) st)
    = Electron.pendingContentPacks st ++ paths /\
    Electron.bgInvalidation
      (Electron.run (map Electron.AddPersistentContentPack paths) st)
    = Electron.bgInvalidation st.
Proof.
  induction paths as [|p paths IH]; intros st Hc.
  - cbn. now rewrite app_nil_r.
  - unfold Electron.run in *. cbn [map fold_left Electron.step].
    assert (Electron.onAddPersistentContentPack p st
            = {| Electron.downloadLocation := Electron.downloadLocation st;
                 Electron.autoAdd := Electron.autoAdd st;
                 Electron.vuexHistory := Electron.vuexHistory st;
                 Electron.store := Electron.store st;
                 Electron.bgInvalidation := Electron.bgInvalidation st;
                 Electron.pendingContentPacks :=
                   Electron.pendingContentPacks st ++ [p];
                 Electron.installedBackgrounds :=
                   Electron.installedBackgrounds st;
                 Electron.effects := Electron.effects st |}) as ->
      by (unfold Electron.onAddPersistentContentPack; now rewrite Hc).
    match goal with
    | |- context [fold_left Electron.step _ ?s] =>
        destruct (IH s) as (He & Hp & Hb); [exact Hc|]
    end.
    rewrite He, Hp, Hb. cbn. now rewrite <- app_assoc.
Qed.

(** X21: content packs announced before the store is connected are not
    lost.  While unconnected, the listener only queues the paths, in the
    order of arrival, and makes no call; [connectToStore] then ends with
    one transaction that loads all of them, in that order.  With no frame
    request pending, the calls of [connectToStore] are exactly a frame
    request and that transaction. *)
Theorem Electron_pending_packs_load_on_connect
    (paths : list string) (history storeRef : nat) (handle : N)
    (st : Electron.State) :
  Electron.connected st = false ->
  Electron.bgInvalidation st = None ->
  Electron.pendingContentPacks st ++ paths <> [] ->
  let st1 := Electron.run (map Electron.AddPersistentContentPack paths) st in
  Electron.effects st1 = Electron.effects st /\
  Electron.effects (Electron.connectToStore history storeRef handle st1)
  = Electron.effects st ++
    [ Electron.RequestAnimationFrame handle;
      Electron.Transaction "content/loadContentPacks"
        (Electron.FilePaths (Electron.pendingContentPacks st ++ paths)) ].
Proof.
  intros Hc Hbg Hsome. cbn zeta.
  destruct (Electron_run_content_packs paths st Hc) as (He & Hp & Hb).
  split; [exact He|].
  unfold Electron.connectToStore, Electron.invalidateInstalledBGs.
  cbn. rewrite Hb, Hbg. cbn. rewrite Hp, He.
  destruct (Electron.pendingContentPacks st ++ paths) as [|p ps];
    [congruence|].
  cbn. now rewrite <- app_assoc.
Qed.

Lemma Electron_background_while_pending
    (p : string) (h h0 : N) (st : Electron.State) :
  Electron.connected st = true ->
  Electron.bgInvalidation st = Some h0 ->
  let st' := Electron.onAddPersistentBackground p h st in
  Electron.connected st' = true /\
  Electron.bgInvalidation st' = Some h0 /\
  List.filter Electron.isFrameRequest (Electron.effects st')
  = List.filter Electron.isFrameRequest (Electron.effects st) /\
  List.filter Electron.isTransaction (Electron.effects st')
  = List.filter Electron.isTransaction (Electron.effects st) /\
  length (Electron.installedBackgrounds st')
  = S (length (Electron.installedBackgrounds st)).
Proof.
  destruct st as [dl aa vh sr bg pend ibg eff].
  unfold Electron.connected. cbn. intros Hc ->.
  unfold Electron.onAddPersistentBackground, Electron.invalidateInstalledBGs,
    Electron.connected, Electron.emit. cbn.
  destruct vh, sr; try discriminate. cbn.
  rewrite !List.filter_app, length_app. cbn. rewrite !app_nil_r.
  repeat split. lia.
Qed.

Lemma Electron_backgrounds_while_pending (more : list (string * N)) :
  forall (h0 : N) (st : Electron.State),
    Electron.connected st = true ->
    Electron.bgInvalidation st = Some h0 ->
    let st' :=
      Electron.run
        (map (fun ph => Electron.AddPersistentBackground (fst ph) (snd ph))
           more) st in
    Electron.connected st' = true /\
    Electron.bgInvalidation st' = Some h0 /\
    List.filter Electron.isFrameRequest (Electron.effects st')
    = List.filter Electron.isFrameRequest (Electron.effects st) /\
    List.filter Electron.isTransaction (Electron.effects st')
    = List.filter Electron.isTransaction (Electron.effects st) /\
    length (Electron.installedBackgrounds st')
    = (length (Electron.installedBackgrounds st) + length more)%nat.
Proof.
  induction more as [|[p h] more IH]; intros h0 st Hc Hbg.
  - cbn. repeat split; try assumption. lia.
  - cbn zeta. unfold Electron.run. cbn [map fold_left Electron.step fst snd].
    destruct (Electron_background_while_pending p h h0 st Hc Hbg)
      as (Hc1 & Hbg1 & Hf1 & Ht1 & Hl1).
    destruct (IH h0 _ Hc1 Hbg1) as (Hc2 & Hbg2 & Hf2 & Ht2 & Hl2).
    unfold Electron.run in *.
    split; [exact Hc2|]. split; [exact Hbg2|].
    split; [congruence|]. split; [congruence|].
    rewrite Hl2, Hl1. cbn. lia.
Qed.

(** X22: a burst of new backgrounds costs one animation frame and one
    update of the store.  Connected and with no frame pending, the first
    ['add-persistent-background'] requests an animation frame and the
    further ones request none and start no transaction; when the frame
    fires it is cancelled, forgotten, and one transaction replaces the
    pack of installed backgrounds with all the entries, those of the burst
    included. *)
Theorem Electron_burst_of_backgrounds_updates_once
    (p0 : string) (h0 : N) (more : list (string * N)) (st : Electron.State) :
  Electron.connected st = true ->
  Electron.bgInvalidation st = None ->
  h0 <> 0%N ->
  let st1 :=
    Electron.run
      (Electron.AddPersistentBackground p0 h0 ::
       map (fun ph => Electron.AddPersistentBackground (fst ph) (snd ph)) more)
      st in
  List.filter Electron.isFrameRequest (Electron.effects st1)
  = List.filter Electron.isFrameRequest (Electron.effects st) ++
    [Electron.RequestAnimationFrame h0] /\
  List.filter Electron.isTransaction (Electron.effects st1)
  = List.filter Electron.isTransaction (Electron.effects st) /\
  length (Electron.installedBackgrounds st1)
  = (length (Electron.installedBackgrounds st) + S (length more))%nat /\
  Electron.effects (Electron.updateInstalledBGs st1)
  = Electron.effects st1 ++
    [ Electron.CancelAnimationFrame h0;
      Electron.Transaction "content/replaceContentPack"
        (Electron.InstalledBackgroundsPack (Electron.installedBackgrounds st1)) ] /\
  Electron.bgInvalidation (Electron.updateInstalledBGs st1) = None.
Proof.
  intros Hc Hbg Hh0. cbn zeta.
  unfold Electron.run. cbn [fold_left Electron.step].
  set (st0 := Electron.onAddPersistentBackground p0 h0 st).
  assert (Electron.connected st0 = true /\
          Electron.bgInvalidation st0 = Some h0 /\
          List.filter Electron.isFrameRequest (Electron.effects st0)
          = List.filter Electron.isFrameRequest (Electron.effects st) ++
            [Electron.RequestAnimationFrame h0] /\
          List.filter Electron.isTransaction (Electron.effects st0)
          = List.filter Electron.isTransaction (Electron.effects st) /\
          length (Electron.installedBackgrounds st0)
          = S (length (Electron.installedBackgrounds st)))
    as (Hc0 & Hbg0 & Hf0 & Ht0 & Hl0).
  { subst st0. destruct st as [dl aa vh sr bg pend ibg eff].
    unfold Electron.connected in Hc. cbn in Hc, Hbg. subst bg.
    unfold Electron.onAddPersistentBackground,
      Electron.invalidateInstalledBGs, Electron.connected, Electron.emit,
      Electron.set_bgInvalidation. cbn.
    destruct vh, sr; try discriminate. cbn.
    rewrite !List.filter_app, length_app. cbn. rewrite !app_nil_r.
    repeat split. lia. }
  destruct (Electron_backgrounds_while_pending more h0 st0 Hc0 Hbg0)
    as (Hc1 & Hbg1 & Hf1 & Ht1 & Hl1).
  unfold Electron.run in *.
  set (st1 := fold_left Electron.step _ st0) in *.
  split; [congruence|]. split; [congruence|]. split; [lia|].
  unfold Electron.updateInstalledBGs. rewrite Hbg1.
  assert ((h0 =? 0)%N = false) as -> by now apply N.eqb_neq.
  destruct st1 as [dl aa vh sr bg pend ibg eff].
  unfold Electron.connected in *. cbn in *.
  destruct vh, sr; try discriminate. cbn.
  split; [|reflexivity]. now rewrite <- app_assoc.
Qed.

Lemma Electron_step_frame_budget
    (st : Electron.State) (e : Electron.Event) (budget : nat) :
  Electron.eventHandle e <> Some 0%N ->
  (forall h, Electron.bgInvalidation st = Some h -> h <> 0%N) ->
  (length (List.filter Electron.isFrameRequest (Electron.effects st))
   + match Electron.bgInvalidation st with Some _ => 0 | None => 1 end
   <= budget)%nat ->
  (forall h,
     Electron.bgInvalidation (Electron.step st e) = Some h -> h <> 0%N) /\
  (length (List.filter Electron.isFrameRequest
             (Electron.effects (Electron.step st e)))
   + match Electron.bgInvalidation (Electron.step st e) with
     | Some _ => 0
     | None => 1
     end
   <= budget + (if Electron.isAnimationFrame e then 1 else 0))%nat.
Proof.
  intros Hhandle Hnonzero Hbudget.
  destruct st as [dl aa vh sr bg pend ibg eff]. cbn in Hnonzero, Hbudget.
  destruct e; cbn [Electron.step Electron.isAnimationFrame];
    cbn [Electron.eventHandle] in Hhandle;
    unfold Electron.onAddPersistentContentPack,
      Electron.onAddPersistentBackground, Electron.connectToStore,
      Electron.invalidateInstalledBGs,
      Electron.onPushMessage, Electron.onDownloadFolderUpdate,
      Electron.onAutoLoadChanged, Electron.updateInstalledBGs,
      Electron.connected, Electron.emit, Electron.set_bgInvalidation;
    cbn;
    try (destruct bg as [h0|];
         [destruct (N.eqb_spec h0 0);
          [exfalso; now apply (Hnonzero h0)|]|]; cbn);
    try destruct vh; try destruct sr; cbn;
    try destruct pend; cbn;
    rewrite ?List.filter_app, ?length_app; cbn;
    (split; [intros h' [= <-]; congruence || auto | lia]).
Qed.

Lemma Electron_run_frame_budget (events : list Electron.Event) :
  forall (st : Electron.State) (budget : nat),
    Forall (fun e => Electron.eventHandle e <> Some 0%N) events ->
    (forall h, Electron.bgInvalidation st = Some h -> h <> 0%N) ->
    (length (List.filter Electron.isFrameRequest (Electron.effects st))
     + match Electron.bgInvalidation st with Some _ => 0 | None => 1 end
     <= budget)%nat ->
    (length (List.filter Electron.isFrameRequest
               (Electron.effects (Electron.run events st)))
     + match Electron.bgInvalidation (Electron.run events st) with
       | Some _ => 0
       | None => 1
       end
     <= budget + length (List.filter Electron.isAnimationFrame events))%nat.
Proof.
  induction events as [|e events IH]; intros st budget Hall Hnonzero Hbudget.
  - cbn. lia.
  - inversion Hall as [|? ? He Hrest]; subst.
    destruct (Electron_step_frame_budget st e budget He Hnonzero Hbudget)
      as [Hnonzero1 Hbudget1].
    specialize (IH (Electron.step st e) _ Hrest Hnonzero1 Hbudget1).
    unfold Electron.run in *. cbn [fold_left List.filter].
    destruct (Electron.isAnimationFrame e); cbn [length] in *; lia.
Qed.

(** X23: at most one animation frame is outstanding.  Over any sequence
    of messages, calls of [connectToStore] and animation frames (the
    handles [requestAnimationFrame] returns being other than 0, as
    browsers give them), the environment has requested at most one
    animation frame more than have fired. *)
Theorem Electron_one_frame_outstanding (events : list Electron.Event) :
  Forall (fun e => Electron.eventHandle e <> Some 0%N) events ->
  (length (List.filter Electron.isFrameRequest
             (Electron.effects (Electron.run events Electron.initial)))
   <= S (length (List.filter Electron.isAnimationFrame events)))%nat.
Proof.
  intros Hall.
  pose proof (Electron_run_frame_budget events Electron.initial 1 Hall) as Hrun.
  cbn in Hrun. specialize (Hrun ltac:(discriminate) ltac:(lia)). lia.
Qed.

(** ** The further properties on sample data *)

Lemma getRenderParts_extends_height_cache_sample :
  exists parts env',
    sample_getRenderParts sampleTokens sampleStyle sampleEnv = Ok (parts, env') /\
    (size (heightCache env') + length (layoutLog sampleEnv)
     = size (heightCache sampleEnv) + length (layoutLog env'))%nat.
Proof.
  destruct (sample_getRenderParts sampleTokens sampleStyle sampleEnv)
    as [[parts env']|e] eqn:Hrun.
  - exists parts, env'. split; [reflexivity|].
    apply (getRenderParts_extends_height_cache sampleNumberToString
             sampleMeasureText sampleOffsetHeight nat sampleCommands
             sampleTokens sampleStyle sampleEnv env' parts Hrun).
  - vm_compute in Hrun. discriminate.
Defined.

Lemma unknown_command_throws_sample :
  sample_getRenderParts
    ([TText [72]%N] ++
     TCommand {| commandName := "u"; argument := None; pos := 1%N |} ::
     [TText [105]%N])
    sampleStyle sampleEnv
  = Throw (UnknownCommand "u" 1%N).
Proof.
  destruct (sample_getRenderParts [TText [72]%N] sampleStyle sampleEnv)
    as [r|e] eqn:Hreach.
  - apply (unknown_command_throws sampleNumberToString sampleMeasureText
             sampleOffsetHeight nat sampleCommands [TText [72]%N]
             [TText [105]%N]
             {| commandName := "u"; argument := None; pos := 1%N |}
             sampleStyle sampleEnv r Hreach).
    vm_compute. reflexivity.
  - vm_compute in Hreach. discriminate.
Defined.

Lemma command_scope_style_and_height_sample :
  exists st' env',
    sample_interpretTokens
      [ TCommand sampleB; TText [108; 111]%N; TCommandClose "b" 8%N;
        TText [33]%N ] (initialInterp sampleStyle 24) sampleEnv
    = Ok (st', env') /\
    currentStyle st' = sampleStyle.
Proof.
  destruct (command_scope_style_and_height sampleNumberToString
              sampleMeasureText sampleOffsetHeight nat sampleCommands sampleB
              [108; 111]%N [33]%N 8%N sampleBold
              (initialInterp sampleStyle 24) sampleEnv)
    as (st' & env' & insideItems & afterItems & Hrun & _ & _ & _ & _ & _
        & Hstyle & _).
  - vm_compute. reflexivity.
  - exists st', env'. split; [exact Hrun | exact Hstyle].
Defined.

Lemma render_applies_style_on_change_sample :
  styleApplications (sample_render sampleLine30 []) = 1%nat.
Proof.
  apply (proj2 (render_applies_style_on_change sampleNumberToString
                  sampleLine30 []) sampleStyle).
  - discriminate.
  - repeat constructor.
Defined.

Lemma fixAlignment_y_depends_on_heights_only_sample :
  map y (fixAlignment alignLeft 0 100 5 sampleRisingLines)
  = map y (fixAlignment alignRight 20 300 5
             [ sampleChar 66%N 10 33 2; sampleNewline 10;
               sampleChar 67%N 20 7 1 ]).
Proof.
  apply fixAlignment_y_depends_on_heights_only; reflexivity.
Defined.

Lemma fixAlignment_items_abut_sample :
  exists a b,
    fixAlignment alignCenter 0 100 0 sampleSpacedLine !! 0%nat = Some a /\
    fixAlignment alignCenter 0 100 0 sampleSpacedLine !! 1%nat = Some b /\
    x b = x a + width a.
Proof.
  eexists _, _. split; [vm_compute; reflexivity|].
  split; [vm_compute; reflexivity|].
  apply (fixAlignment_items_abut alignCenter 0 100 0 sampleSpacedLine 0);
    reflexivity.
Defined.


Lemma quote_twice_nests_sample :
  exists parts1 env1 parts2 env2,
    sample_quote sampleParts sampleEnv = Some (parts1, env1) /\
    sample_quote parts1 env1 = Some (parts2, env2) /\
    length parts2 = 9%nat.
Proof.
  destruct (sample_quote sampleParts sampleEnv) as [[parts1 env1]|] eqn:Hone;
    [|vm_compute in Hone; discriminate].
  destruct (sample_quote parts1 env1) as [[parts2 env2]|] eqn:Htwo.
  - exists parts1, env1, parts2, env2. split; [reflexivity|].
    split; [exact Htwo|].
    apply (quote_twice_nests sampleNumberToString sampleMeasureText nat
             sampleParts parts1 parts2 sampleEnv env1 env2); try assumption.
    do 2 apply Exists_cons_tl. apply Exists_cons_hd. reflexivity.
  - vm_compute in Hone. injection Hone as <- <-.
    vm_compute in Htwo. discriminate.
Defined.


Lemma Electron_silent_until_connected_sample :
  List.filter Electron.isTransaction
    (Electron.effects
       (Electron.run
          [ Electron.AddPersistentBackground "bg/room.png" 1%N;
            Electron.AnimationFrame;
            Electron.AddPersistentContentPack "packs/a.json" ]
          Electron.initial)) = [] /\
  List.filter Electron.isFrameRequest
    (Electron.effects
       (Electron.run
          [ Electron.AddPersistentBackground "bg/room.png" 1%N;
            Electron.AnimationFrame;
            Electron.AddPersistentContentPack "packs/a.json" ]
          Electron.initial)) = [].
Proof.
  apply Electron_silent_until_connected. repeat constructor.
Defined.

Lemma Electron_pending_packs_load_on_connect_sample :
  Electron.effects
    (Electron.connectToStore 1 2 7%N
       (Electron.run
          (map Electron.AddPersistentContentPack ["a.json"; "b.json"])
          Electron.initial))
  = [ Electron.Send "init-dddg";
      Electron.RequestAnimationFrame 7%N;
      Electron.Transaction "content/loadContentPacks"
        (Electron.FilePaths ["a.json"; "b.json"]) ].
Proof.
  apply (Electron_pending_packs_load_on_connect ["a.json"; "b.json"] 1 2 7%N
           Electron.initial); [reflexivity | reflexivity | discriminate].
Defined.

Lemma Electron_burst_of_backgrounds_updates_once_sample :
  length
    (Electron.installedBackgrounds
       (Electron.run
          [ Electron.AddPersistentBackground "bg/a.png" 9%N;
            Electron.AddPersistentBackground "bg/b.png" 10%N;
            Electron.AddPersistentBackground "c.png" 11%N ]
          (Electron.updateInstalledBGs
             (Electron.connectToStore 1 2 7%N Electron.initial))))
  = 3%nat.
Proof.
  apply (Electron_burst_of_backgrounds_updates_once "bg/a.png" 9%N
           [("bg/b.png", 10%N); ("c.png", 11%N)]
           (Electron.updateInstalledBGs
              (Electron.connectToStore 1 2 7%N Electron.initial)));
    [reflexivity | reflexivity | discriminate].
Defined.

Lemma Electron_one_frame_outstanding_sample :
  (length
     (List.filter Electron.isFrameRequest
        (Electron.effects
           (Electron.run
              [ Electron.ConnectToStore 1 2 7%N;
                Electron.AddPersistentBackground "bg/a.png" 9%N;
                Electron.AnimationFrame;
                Electron.AddPersistentBackground "bg/b.png" 10%N;
                Electron.AddPersistentBackground "bg/c.png" 11%N ]
              Electron.initial)))
   <= 2)%nat.
Proof.
  apply (Electron_one_frame_outstanding
           [ Electron.ConnectToStore 1 2 7%N;
             Electron.AddPersistentBackground "bg/a.png" 9%N;
             Electron.AnimationFrame;
             Electron.AddPersistentBackground "bg/b.png" 10%N;
             Electron.AddPersistentBackground "bg/c.png" 11%N ]).
  repeat constructor; discriminate.
Defined.

Lemma applyTextStyleToCanvas_ignores_decoration_sample :
  applyTextStyleToCanvas sampleNumberToString sampleStyle []
  = applyTextStyleToCanvas sampleNumberToString
      {| objectId := 7; fontName := "aller"; fontSize := 24;
         isBold := false; isUnderlined := true; isStrikethrough := true;
         isItalic := false; color := "white"; strokeWidth := 4;
         strokeColor := "black"; letterSpacing := 3; lineSpacing := 2;
         alpha := 1 |} [].
Proof.
  apply (applyTextStyleToCanvas_ignores_decoration sampleNumberToString);
    reflexivity.
Defined.
